(** * badpubs: publications of an RDF feed that lack a PubMed identifier

    A shallow embedding of [src/badpubs.py] (Python 2) and the properties of
    its pipeline: statement index, gap detection, sorted report, the four
    formatters, the PubMed lookup and the error path of [main]. *)

From Stdlib Require Import ZArith NArith List String Ascii Lia.
From stdpp Require Import base option list gmap sorting pretty lexico.

Local Open Scope N_scope.

(** ** Text

    A Python 2 [unicode] object is a sequence of code points and a [str] is a
    sequence of octets; both are lists of numbers here.  [u] reads an ASCII
    literal of the source. *)

Abbreviation ustring := (list N).
Abbreviation bytes := (list N).

Definition u (s : string) : ustring :=
  map N_of_ascii (list_ascii_of_string s).

(** The octets of one code point in UTF-8. *)
Definition utf8_encode_char (c : N) : bytes :=
  if c <? 128 then [c]
  else if c <? 2048 then [192 + c / 64; 128 + c mod 64]
  else if c <? 65536 then
    [224 + c / 4096; 128 + (c / 64) mod 64; 128 + c mod 64]
  else
    [240 + c / 262144; 128 + (c / 4096) mod 64;
     128 + (c / 64) mod 64; 128 + c mod 64].

(** The surrogates: U+D800..U+DBFF are the high ones, U+DC00..U+DFFF the
    low ones; a high one and a low one stand for a code point from U+10000
    on. *)
Definition high_surrogate (c : N) : bool := (55296 <=? c) && (c <? 56320).
Definition low_surrogate (c : N) : bool := (56320 <=? c) && (c <? 57344).
Definition surrogate_pair (c c2 : N) : N :=
  65536 + (c - 55296) * 1024 + (c2 - 56320).

(** [Formatter.encode], [s.encode('utf-8')].  The Python 2 codec is total:
    it writes a high surrogate that a low one follows as the four octets of
    the code point that the pair stands for, and every other element,
    a lone surrogate too, as the octets of its own. *)
Fixpoint encode (s : ustring) : bytes :=
  match s with
  | [] => []
  | c :: s' =>
      match s' with
      | c2 :: s'' =>
          if high_surrogate c && low_surrogate c2
          then utf8_encode_char (surrogate_pair c c2) ++ encode s''
          else utf8_encode_char c ++ encode s'
      | [] => utf8_encode_char c
      end
  end.

(** [sep.join(l)] *)
Fixpoint join (sep : ustring) (l : list ustring) : ustring :=
  match l with
  | [] => []
  | [x] => x
  | x :: l' => x ++ sep ++ join sep l'
  end.

(** ** RDF terms, triples, the statement index *)

(** The objects of a triple; [unicode] is the text that [unicode(i)] and
    [u'%s' % i] give for each.  Subjects and predicates are URIs. *)
Inductive node :=
  | URIRef (v : ustring)
  | BNode (v : ustring)
  | Literal (v : ustring).

Definition unicode (n : node) : ustring :=
  match n with URIRef v | BNode v | Literal v => v end.

Abbreviation uri := (list N).
Abbreviation triple := (list N * list N * node)%type.
(** predicate URI -> objects, in arrival order *)
Abbreviation predicates_t := (gmap (list N) (list node)).
(** subject URI -> predicates *)
Abbreviation statements_t := (gmap (list N) (gmap (list N) (list node))).

Definition _defaultURL : uri :=
  u "http://ginger.fhcrc.org/dmcc/rdf-data/publications/rdf".
Definition _pubMedIDPredURI : uri :=
  u "http://edrn.nci.nih.gov/rdf/schema.rdf#pmid".
Definition _titlePredURI : uri := u "http://purl.org/dc/terms/title".
Definition _creatorPredURI : uri := u "http://purl.org/dc/terms/author".
(** The sentinels are written between the guillemets U+00AB and U+00BB. *)
Definition NO_TITLE : ustring := [171] ++ u "NO TITLE" ++ [187].
Definition NO_AUTHORS : ustring := [171] ++ u "NO AUTHORS" ++ [187].
Definition NONE : ustring := [171] ++ u "NONE" ++ [187].

Arguments u : simpl never.
Arguments _defaultURL : simpl never.
Arguments _pubMedIDPredURI : simpl never.
Arguments _titlePredURI : simpl never.
Arguments _creatorPredURI : simpl never.
Arguments NO_TITLE : simpl never.
Arguments NO_AUTHORS : simpl never.
Arguments NONE : simpl never.

(** The body of the loop of [parsePubs].  The source fetches the subject's
    dictionary (a fresh one when absent), stores it back, fetches the
    predicate's list (a fresh one when absent), stores it back and appends to
    the list object that the dictionary now holds; the stored objects are
    the mutated ones, so the state after the body is the nested update. *)
Definition parsePubs_step (statements : statements_t) (t : triple)
  : statements_t :=
  let '(s, p, o) := t in
  let predicates := default ∅ (statements !! s) in
  let objects := default [] (predicates !! p) in
  <[s := <[p := objects ++ [o]]> predicates]> statements.

(** The loop [for s, p, o in g] over the triples in iteration order, from
    the empty dictionary; the second component is [count]. *)
Definition parsePubs_loop (g : list triple) : statements_t * nat :=
  foldl (λ '(statements, count) t, (parsePubs_step statements t, S count))
        (∅, 0%nat) g.

(** The objects of the triples of [g] with subject [s] and predicate [p],
    in the order of [g]. *)
Definition objects_of (g : list triple) (s p : uri) : list node :=
  omap (λ '(s', p', o),
          if decide (s' = s ∧ p' = p) then Some o else None) g.

Definition subjects_of (g : list triple) : list uri :=
  map (λ t, t.1.1) g.

(** ** Effects: exceptions, the output stream, the log, the requests sent *)

(** The exceptions of a run.  The first four are the classes of the
    collaborators (feed unreachable, feed malformed, search service
    unreachable or malformed, destination not writable); the others are
    raised by Python itself. *)
Inductive exn :=
  | FetchError | ParseError | LookupError | OutputError
  | KeyError | IndexError | UnicodeEncodeError
  | SystemExit (status : Z).

Inductive result (A : Type) :=
  | Ok (a : A)
  | Raise (e : exn).
Arguments Ok {A} a.
Arguments Raise {A} e.

#[global] Instance result_ret : MRet result := λ A a, Ok a.
#[global] Instance result_bind : MBind result := λ A B f r,
  match r with
  | Ok a => f a
  | Raise e => Raise e
  end.

Inductive levelname := INFO | ERROR.

(** The query parameters of one search request ([params] in
    [LookupFormatter.format]); [urllib.urlencode] writes them into the URL. *)
Record query := Query { db : ustring; field : ustring; term : bytes }.

(** What a run acts on: the writes made to the output destination in order
    (one per record), whether it was closed, the log records, and the
    requests sent to the search service. *)
Record world := World {
  output : list bytes;
  closed : bool;
  log : list (levelname * ustring);
  requests : list query }.

Definition world0 : world := World [] false [] [].

Definition M (A : Type) : Type := world → result A * world.

#[global] Instance M_ret : MRet M := λ A a w, (Ok a, w).
#[global] Instance M_bind : MBind M := λ A B f m w,
  match m w with
  | (Ok a, w') => f a w'
  | (Raise e, w') => (Raise e, w')
  end.

Definition raise {A} (e : exn) : M A := λ w, (Raise e, w).

(** a value or an exception of a collaborator, lifted *)
Definition lift {A} (r : result A) : M A := λ w, (r, w).

(** [output.write(b)].  The destination is a buffered file object; every
    write is taken to succeed, and a destination that refuses what was
    written is reported where the source closes it ([close] below). *)
Definition write (b : bytes) : M unit := λ w,
  (Ok (), World (output w ++ [b]) (closed w) (log w) (requests w)).

Definition logging (l : levelname) (msg : ustring) : M unit := λ w,
  (Ok (), World (output w) (closed w) (log w ++ [(l, msg)]) (requests w)).

Definition send (q : query) : M unit := λ w,
  (Ok (), World (output w) (closed w) (log w) (requests w ++ [q])).

(** [try: body  except: handler]; the bare [except] catches everything. *)
Definition try_except {A} (body : M A) (handler : M A) : M A := λ w,
  match body w with
  | (Ok a, w') => (Ok a, w')
  | (Raise _, w') => handler w'
  end.

(** [for x in l: body x] *)
Fixpoint for_each {A} (l : list A) (body : A → M unit) : M unit :=
  match l with
  | [] => mret ()
  | x :: l' => body x;; for_each l' body
  end.

(** [%d] *)
Definition decimal (n : nat) : ustring := u (pretty n).

(** ** The collaborators

    The RDF library gives the triples of the feed at a location in the
    iteration order of the graph, or fails; the search service gives the
    text nodes selected by [/eSearchResult/IdList/Id/text()] in document
    order, or fails; the destination opens or does not, and when it is
    closed it takes what was written to it or does not (a closed pipe, a
    full disk).  A Python 2 dictionary is iterated in an order of its own,
    in which every item comes once. *)
Record env := Env {
  rdf_parse : uri → result (list triple);
  esearch : query → result (list ustring);
  open_output : ustring → bool;
  flush : list bytes → bool;
  iteritems : statements_t → list (uri * predicates_t);
  iteritems_perm : ∀ m, iteritems m ≡ₚ map_to_list m }.

(** [output.close()]: the file object is closed whether or not the flush
    succeeds, and a flush that fails raises. *)
Definition close (E : env) : M unit := λ w,
  (if flush E (output w) then Ok () else Raise OutputError,
   World (output w) true (log w) (requests w)).

(** ** The csv writer of the standard library, excel dialect

    [csv.writer(output)] has the comma as delimiter, the double quote as
    quote character, doubled inside a quoted field, minimal quoting, and
    CR LF as line terminator. *)

(** The part of a field that the writer sees: the 2.x implementation reads
    a field as a C string, up to its first NUL octet. *)
Fixpoint c_string (f : bytes) : bytes :=
  match f with
  | [] => []
  | c :: f' => if c =? 0 then [] else c :: c_string f'
  end.

(** delimiter, quote character, or a character of the line terminator *)
Definition csv_special (c : N) : bool :=
  (c =? 44) || (c =? 34) || (c =? 13) || (c =? 10).

(** the characters of a field, each quote character doubled *)
Definition csv_double (f : bytes) : bytes :=
  flat_map (λ c, if c =? 34 then [34; 34] else [c]) f.

(** One field; [quote_empty] holds for the only field of a record. *)
Definition csv_field (quote_empty : bool) (f : bytes) : bytes :=
  let f := c_string f in
  if existsb csv_special f || (quote_empty && bool_decide (f = []))
  then [34] ++ csv_double f ++ [34]
  else f.

Fixpoint csv_join (fs : list bytes) : bytes :=
  match fs with
  | [] => []
  | [f] => f
  | f :: fs' => f ++ [44] ++ csv_join fs'
  end.

(** the line that [writerow] writes for a sequence of [str] fields *)
Definition csv_record (row : list bytes) : bytes :=
  csv_join (map (csv_field (bool_decide (length row = 1%nat))) row)
  ++ [13; 10].

(** A field that is not a [str]: [None] is written as the empty string, and
    text through [str()], the ASCII codec, which raises on any other code
    point. *)
Definition csv_str (x : option ustring) : result bytes :=
  match x with
  | None => Ok []
  | Some s => if forallb (λ c, c <? 128) s then Ok s
              else Raise UnicodeEncodeError
  end.

(** ** The formatters *)

Inductive formatter :=
  | PlainFormatter | PlainLookupFormatter | CSVFormatter | CSVLookupFormatter.

(** [Formatter.__repr__]: the name of the class *)
Definition repr (f : formatter) : ustring :=
  match f with
  | PlainFormatter => u "PlainFormatter"
  | PlainLookupFormatter => u "PlainLookupFormatter"
  | CSVFormatter => u "CSVFormatter"
  | CSVLookupFormatter => u "CSVLookupFormatter"
  end.

(** [PlainFormatter.format] *)
Definition PlainFormatter_format (subject title creators : ustring) : M unit :=
  let message :=
    subject ++ u ": " ++ title ++ u ", Creators: " ++ creators ++ [10] in
  write (encode message).

(** [PlainLookupFormatter.formatWithSuggestedPubMedID]; the test
    [pubMedID if pubMedID else ...] is on truth, and the empty text is
    false as [None] is. *)
Definition PlainLookupFormatter_formatWithSuggestedPubMedID
    (subject title creators : ustring) (pubMedID : option ustring) : M unit :=
  let message :=
    subject ++ u ": " ++ title ++ u ", Creators: " ++ creators
    ++ u ", Suggested PubMedID: "
    ++ match pubMedID with
       | Some (c :: i) => c :: i
       | _ => NONE
       end
    ++ [10] in
  write (encode message).

(** [CSVFormatter.format] *)
Definition CSVFormatter_format (subject title creators : ustring) : M unit :=
  let '(subject, title, creators) :=
    (encode subject, encode title, encode creators) in
  write (csv_record [subject; title; creators]).

(** [CSVLookupFormatter.formatWithSuggestedPubMedID]: the identifier goes
    to the writer as it is, not encoded. *)
Definition CSVLookupFormatter_formatWithSuggestedPubMedID
    (subject title creators : ustring) (pubMedID : option ustring) : M unit :=
  let '(subject, title, creators) :=
    (encode subject, encode title, encode creators) in
  pubMedID ← lift (csv_str pubMedID);
  write (csv_record [subject; title; creators; pubMedID]).

(** [params] of [LookupFormatter.format] *)
Definition params (title : ustring) : query :=
  Query (u "pubmed") (u "title") (encode title).

(** [LookupFormatter.format], over the method of the subclass *)
Definition LookupFormatter_format (E : env)
    (formatWithSuggestedPubMedID :
       ustring → ustring → ustring → option ustring → M unit)
    (subject title creators : ustring) : M unit :=
  send (params title);;
  results ← lift (esearch E (params title));
  let suggestedID := head results in
  formatWithSuggestedPubMedID subject title creators suggestedID.

(** [formatter.format(subject, title, creators)] *)
Definition format (E : env) (f : formatter)
    (subject title creators : ustring) : M unit :=
  match f with
  | PlainFormatter => PlainFormatter_format subject title creators
  | CSVFormatter => CSVFormatter_format subject title creators
  | PlainLookupFormatter =>
      LookupFormatter_format E
        PlainLookupFormatter_formatWithSuggestedPubMedID
        subject title creators
  | CSVLookupFormatter =>
      LookupFormatter_format E
        CSVLookupFormatter_formatWithSuggestedPubMedID
        subject title creators
  end.

(** ** The pipeline *)

(** [parsePubs] *)
Definition parsePubs (E : env) (url : uri) : M statements_t :=
  logging INFO (u "Reading from " ++ url);;
  g ← lift (rdf_parse E url);
  let '(statements, count) := parsePubs_loop g in
  logging INFO
    (u "Total statements in " ++ url ++ u ": " ++ decimal count);;
  mret statements.

(** [findMissingPubMedIDs] *)
Definition findMissingPubMedIDs (E : env) (statements : statements_t)
  : M (list (uri * predicates_t)) :=
  logging INFO
    (u "Checking subjects (" ++ decimal (size statements) ++ u " in total)");;
  mret (foldl (λ missing '(subject, predicates),
                 if decide (_pubMedIDPredURI ∉ dom predicates)
                 then missing ++ [(subject, predicates)]
                 else missing)
              [] (iteritems E statements)).

(** [d[k]] and [l[0]] *)
Definition getitem {V} (d : gmap (list N) V) (k : list N) : result V :=
  match d !! k with
  | Some v => Ok v
  | None => Raise KeyError
  end.

Definition first {A} (l : list A) : result A :=
  match l with
  | x :: _ => Ok x
  | [] => Raise IndexError
  end.

(** The title and the creators that [outputBadPublications] hands to the
    formatter for one record. *)
Definition title_of (preds : predicates_t) : result ustring :=
  if decide (_titlePredURI ∈ dom preds) then
    objects ← getitem preds _titlePredURI;
    o ← first objects;
    mret ([34] ++ unicode o ++ [34])
  else mret NO_TITLE.

Definition creators_of (preds : predicates_t) : ustring :=
  if decide (_creatorPredURI ∈ dom preds) then
    join (u "; ") (map unicode (default [] (preds !! _creatorPredURI)))
  else NO_AUTHORS.

(** [outputBadPublications] *)
Definition outputBadPublications (E : env)
    (missing : list (uri * predicates_t)) (f : formatter) : M unit :=
  logging INFO (u "Displaying bad publications using formatter " ++ repr f);;
  for_each missing (λ '(subject, preds),
    title ← lift (title_of preds);
    let creators := creators_of preds in
    format E f subject title creators).

(** [cmp] on text: the order of the code points. *)
Fixpoint cmp (a b : ustring) : Z :=
  match a, b with
  | [], [] => 0
  | [], _ :: _ => -1
  | _ :: _, [] => 1
  | x :: a', y :: b' =>
      if x <? y then -1 else if y <? x then 1 else cmp a' b'
  end.

(** [l.sort(f)] with a comparison function: the list in an order in which
    [f] is never positive from an element to a later one.  (The sort of
    Python is stable; the keys sorted here are pairwise different.) *)
Definition not_after {A} (f : A → A → Z) : relation A :=
  λ a b, (f a b ≤ 0)%Z.

#[global] Instance not_after_dec {A} (f : A → A → Z) (a b : A)
  : Decision (not_after f a b) := decide (f a b ≤ 0)%Z.

Definition sort {A} (f : A → A → Z) (l : list A) : list A :=
  merge_sort (not_after f) l.

(** [checkPublications] *)
Definition checkPublications (E : env) (url : uri) (f : formatter) : M unit :=
  statements ← parsePubs E url;
  missing ← findMissingPubMedIDs E statements;
  logging INFO
    (u "Publications without pubmed IDs: " ++ decimal (length missing));;
  let missing := sort (λ a b, cmp a.1 b.1) missing in
  outputBadPublications E missing f.

(** The options after [parse_args]. *)
Record options_t := Options {
  opt_csv : bool;
  opt_output : option ustring;
  opt_suggest : bool }.

(** [main], from the parsed command line on: [args] holds the name of the
    program and the positional arguments.  [_optParser.error] leaves with
    status 2; it and the opening of the destination come before the [try],
    [output.close()] is inside it. *)
Definition main (E : env) (options : options_t) (args : list ustring)
  : M bool :=
  url ← (if decide (2 < length args)%nat then raise (SystemExit 2)
         else match args with
              | [_; url] => mret url
              | _ => mret _defaultURL
              end : M uri);
  (match opt_output options with
   | Some (c :: path) =>
       if open_output E (c :: path) then mret () else raise OutputError
   | _ => mret ()
   end : M unit);;
  let formatter :=
    if opt_suggest options
    then (if opt_csv options then CSVLookupFormatter
          else PlainLookupFormatter)
    else (if opt_csv options then CSVFormatter else PlainFormatter) in
  try_except
    (checkPublications E url formatter;; close E;; mret true : M bool)
    (logging ERROR (u "Failure while checking URL " ++ [34] ++ url ++ [34]);;
     mret false).

(** The status that the process leaves with: [sys.exit(n)] gives the low
    eight bits of [n], an exception that nothing catches gives 1. *)
Definition exit_status (r : result bool) : Z :=
  match r with
  | Ok b => Z.land (if b then 0 else -1) 255
  | Raise (SystemExit n) => Z.land n 255
  | Raise _ => 1
  end.

(** [sys.exit(0 if main(sys.argv) else -1)], from the initial world *)
Definition script (E : env) (options : options_t) (args : list ustring)
  : Z * world :=
  let '(r, w) := main E options args world0 in (exit_status r, w).

(** ** Vocabulary of the statements *)

(** The value list that the index holds for a subject and a predicate. *)
Definition objects_at (statements : statements_t) (s p : uri)
  : option (list node) :=
  match statements !! s with
  | Some preds => preds !! p
  | None => None
  end.

(** The URL and the formatter that [main] settles on. *)
Definition url_of (args : list ustring) : uri :=
  match args with
  | [_; url] => url
  | _ => _defaultURL
  end.



(** The line of the plain format, without and with a suggestion. *)
Definition plain_line (subject title creators : ustring) : bytes :=
  encode subject ++ u ": " ++ encode title ++ u ", Creators: "
  ++ encode creators ++ [10].

Definition plain_lookup_line (subject title creators suggested : ustring)
  : bytes :=
  encode subject ++ u ": " ++ encode title ++ u ", Creators: "
  ++ encode creators ++ u ", Suggested PubMedID: " ++ encode suggested
  ++ [10].

(** The same line with the label as the specification words it. *)
Definition spec_plain_lookup_line
    (subject title creators suggested : ustring) : bytes :=
  encode subject ++ u ": " ++ encode title ++ u ", Creators: "
  ++ encode creators ++ u ", Suggested ID: " ++ encode suggested ++ [10].

(** The suggestion that the plain format shows. *)
Definition shown_id (pubMedID : option ustring) : ustring :=
  match pubMedID with
  | Some (c :: i) => c :: i
  | _ => NONE
  end.

(** The record that the formatter writes for one gap, or the exception that
    rendering it raises: the run of [format] on the gap, as a value. *)
Definition record_of (E : env) (f : formatter) (gap : uri * predicates_t)
  : result bytes :=
  let '(subject, preds) := gap in
  title ← title_of preds;
  let creators := creators_of preds in
  match f with
  | PlainFormatter => Ok (plain_line subject title creators)
  | CSVFormatter =>
      Ok (csv_record [encode subject; encode title; encode creators])
  | PlainLookupFormatter =>
      results ← esearch E (params title);
      Ok (plain_lookup_line subject title creators (shown_id (head results)))
  | CSVLookupFormatter =>
      results ← esearch E (params title);
      pubMedID ← csv_str (head results);
      Ok (csv_record
            [encode subject; encode title; encode creators; pubMedID])
  end.

(** The records of the gaps of a list up to the first that raises, and
    that exception. *)
Fixpoint records_of (E : env) (f : formatter)
    (missing : list (uri * predicates_t)) : list bytes * option exn :=
  match missing with
  | [] => ([], None)
  | gap :: missing' =>
      match record_of E f gap with
      | Ok b => let '(bs, e) := records_of E f missing' in (b :: bs, e)
      | Raise e => ([], Some e)
      end
  end.

(** Ascending order of text. *)
Definition before (a b : ustring) : Prop := cmp a b = (-1)%Z.

(** ** A feed and collaborators to run the model on *)

(** Collaborators that serve the triples [g] at every location, answer
    every search with [answer], open every destination and have it take
    all that is written, and iterate a dictionary in the order of its keys'
    codes. *)
Definition example_env (g : list triple) (answer : result (list ustring))
  : env :=
  Env (λ _, Ok g) (λ _, answer) (λ _, true) (λ _, true) map_to_list
      (λ m, reflexivity (map_to_list m)).


(** Subject A has an identifier, B has none but a title and two creators,
    C has none of the three. *)
Definition feed_ABC : list triple :=
  [ (u "A", _pubMedIDPredURI, Literal (u "123"));
    (u "C", u "http://purl.org/dc/terms/date", Literal (u "2012"));
    (u "B", _creatorPredURI, Literal (u "X"));
    (u "B", _titlePredURI, Literal (u "Foo"));
    (u "B", _creatorPredURI, Literal (u "Y")) ].

(** The index of a list of triples, in the words of the specification: a
    record for the subjects of the triples and no other, and in a record a
    predicate exactly when the subject has a triple with it, with the
    objects of those triples in their order. *)
Definition indexes (g : list triple) (statements : statements_t) : Prop :=
  (∀ s, is_Some (statements !! s) ↔ s ∈ subjects_of g) ∧
  size statements = length (remove_dups (subjects_of g)) ∧
  (∀ s preds p objs,
     statements !! s = Some preds →
     preds !! p = Some objs ↔ objs ≠ [] ∧ objs = objects_of g s p).

(** The gaps of a feed in the order of the report: the pairs that
    [findMissingPubMedIDs] returns for the index of the triples, sorted as
    [checkPublications] sorts them. *)
Definition gaps (E : env) (g : list triple) : list (uri * predicates_t) :=
  sort (λ a b, cmp a.1 b.1)
    (filter (λ x, x.2 !! _pubMedIDPredURI = None)
       (iteritems E (parsePubs_loop g).1)).

(** The result of a statement whose loop stopped with [e]. *)
Definition raised (e : option exn) : result unit :=
  match e with
  | None => Ok ()
  | Some e => Raise e
  end.

(** ** The csv reader of the standard library, excel dialect

    What [csv.reader] makes of a file written by the writer above: the
    state machine of the 2.x implementation, for a dialect without escape
    character, with doubled quotes, not strict.  The reader takes its
    input line by line and runs the machine on every character of a line
    and then on the sentinel 0, which stands for the end of the line; a NUL
    octet in a line is an error, as is a character after a line end inside
    an unquoted field. *)

Inductive ParserState :=
  | START_RECORD | START_FIELD | IN_FIELD | IN_QUOTED_FIELD
  | QUOTE_IN_QUOTED_FIELD | EAT_CRNL.

#[global] Instance ParserState_eq_dec : EqDecision ParserState.
Proof. solve_decision. Defined.

Record ReaderObj := Reader {
  state : ParserState;
  fields : list bytes;
  buffer : bytes }.

Definition parse_reset : ReaderObj := Reader START_RECORD [] [].

Definition parse_save_field (r : ReaderObj) : ReaderObj :=
  Reader (state r) (fields r ++ [buffer r]) [].

Definition parse_add_char (r : ReaderObj) (c : N) : ReaderObj :=
  Reader (state r) (fields r) (buffer r ++ [c]).

Definition set_state (s : ParserState) (r : ReaderObj) : ReaderObj :=
  Reader s (fields r) (buffer r).

Definition end_of_line (c : N) : bool := (c =? 10) || (c =? 13) || (c =? 0).

(** the state after a line end: the sentinel ends the record *)
Definition after_line (c : N) : ParserState :=
  if c =? 0 then START_RECORD else EAT_CRNL.

(** the case [START_FIELD] *)
Definition expect_field (r : ReaderObj) (c : N) : ReaderObj :=
  if end_of_line c then set_state (after_line c) (parse_save_field r)
  else if c =? 34 then set_state IN_QUOTED_FIELD r
  else if c =? 44 then parse_save_field r
  else set_state IN_FIELD (parse_add_char r c).

Definition parse_process_char (r : ReaderObj) (c : N) : option ReaderObj :=
  match state r with
  | START_RECORD =>
      if c =? 0 then Some r
      else if (c =? 10) || (c =? 13) then Some (set_state EAT_CRNL r)
      else Some (expect_field (set_state START_FIELD r) c)
  | START_FIELD => Some (expect_field r c)
  | IN_FIELD =>
      if end_of_line c
      then Some (set_state (after_line c) (parse_save_field r))
      else if c =? 44 then Some (set_state START_FIELD (parse_save_field r))
      else Some (parse_add_char r c)
  | IN_QUOTED_FIELD =>
      if c =? 0 then Some r
      else if c =? 34 then Some (set_state QUOTE_IN_QUOTED_FIELD r)
      else Some (parse_add_char r c)
  | QUOTE_IN_QUOTED_FIELD =>
      if c =? 34 then Some (set_state IN_QUOTED_FIELD (parse_add_char r c))
      else if c =? 44 then Some (set_state START_FIELD (parse_save_field r))
      else if end_of_line c
      then Some (set_state (after_line c) (parse_save_field r))
      else Some (set_state IN_FIELD (parse_add_char r c))
  | EAT_CRNL =>
      if (c =? 10) || (c =? 13) then Some r
      else if c =? 0 then Some (set_state START_RECORD r)
      else None
  end.

(** the characters of a line, without the sentinel *)
Fixpoint process_chars (r : ReaderObj) (line : bytes) : option ReaderObj :=
  match line with
  | [] => Some r
  | c :: line' =>
      if c =? 0 then None
      else r' ← parse_process_char r c; process_chars r' line'
  end.

Definition process_line (r : ReaderObj) (line : bytes) : option ReaderObj :=
  r' ← process_chars r line; parse_process_char r' 0.

(** the record that is returned when the input ends inside it, if any *)
Definition end_of_input (r : ReaderObj) : list (list bytes) :=
  if negb (bool_decide (buffer r = []))
     || bool_decide (state r = IN_QUOTED_FIELD)
  then [fields (parse_save_field r)]
  else [].

(** [Reader_iternext] called until the input ends: the records of the
    lines, from the reader [r]. *)
Fixpoint Reader_iternext (r : ReaderObj) (lines : list bytes)
  : option (list (list bytes)) :=
  match lines with
  | [] => Some (end_of_input r)
  | line :: lines' =>
      r' ← process_line r line;
      if decide (state r' = START_RECORD)
      then (fields r' ::.) <$> Reader_iternext parse_reset lines'
      else Reader_iternext r' lines'
  end.

(** the lines of a file, each with its line feed; [cur] is the line so far *)
Fixpoint readlines (cur : bytes) (data : bytes) : list bytes :=
  match data with
  | [] => if bool_decide (cur = []) then [] else [cur]
  | c :: data' =>
      if c =? 10 then (cur ++ [c]) :: readlines [] data'
      else readlines (cur ++ [c]) data'
  end.

(** [list(csv.reader(f))] for a file with the octets [data] *)
Definition csv_reader (data : bytes) : option (list (list bytes)) :=
  Reader_iternext parse_reset (readlines [] data).

(** The same reading with the lines taken on the fly: [pending] tells
    whether the current line has characters. *)
Fixpoint read_stream (r : ReaderObj) (pending : bool) (data : bytes)
  : option (list (list bytes)) :=
  match data with
  | [] =>
      if pending then
        r' ← parse_process_char r 0;
        if decide (state r' = START_RECORD) then Some [fields r']
        else Some (end_of_input r')
      else Some (end_of_input r)
  | c :: data' =>
      if c =? 0 then None
      else
        r1 ← parse_process_char r c;
        if c =? 10 then
          r2 ← parse_process_char r1 0;
          if decide (state r2 = START_RECORD)
          then (fields r2 ::.) <$> read_stream parse_reset false data'
          else read_stream r2 false data'
        else read_stream r1 true data'
  end.

(** [s.decode('utf-8')]: one code point from the head of the octets, with
    the rest. *)
Definition continuation (b : N) : bool := (128 <=? b) && (b <? 192).

Definition utf8_decode_char (bs : bytes) : option (N * bytes) :=
  match bs with
  | [] => None
  | b :: bs1 =>
      if b <? 128 then Some (b, bs1)
      else if b <? 192 then None
      else if b <? 224 then
        match bs1 with
        | b1 :: bs2 =>
            let c := (b - 192) * 64 + (b1 - 128) in
            if continuation b1 && (128 <=? c) then Some (c, bs2) else None
        | _ => None
        end
      else if b <? 240 then
        match bs1 with
        | b1 :: b2 :: bs3 =>
            let c := (b - 224) * 4096 + (b1 - 128) * 64 + (b2 - 128) in
            if continuation b1 && continuation b2 && (2048 <=? c)
            then Some (c, bs3) else None
        | _ => None
        end
      else if b <? 248 then
        match bs1 with
        | b1 :: b2 :: b3 :: bs4 =>
            let c := (b - 240) * 262144 + (b1 - 128) * 4096
                     + (b2 - 128) * 64 + (b3 - 128) in
            if continuation b1 && continuation b2 && continuation b3
               && (65536 <=? c) && (c <? 1114112)
            then Some (c, bs4) else None
        | _ => None
        end
      else None
  end.

(** [fuel] bounds the number of code points: the length of the input *)
Fixpoint utf8_decode_aux (fuel : nat) (bs : bytes) : option ustring :=
  match bs with
  | [] => Some []
  | _ =>
      match fuel with
      | O => None
      | S fuel' =>
          '(c, bs') ← utf8_decode_char bs;
          s ← utf8_decode_aux fuel' bs';
          Some (c :: s)
      end
  end.

Definition decode (bs : bytes) : option ustring :=
  utf8_decode_aux (length bs) bs.

(** ** Vocabulary of the proofs *)

(** The relation that [checkPublications] sorts by. *)
Definition by_subject {V : Type} : relation (uri * V) :=
  not_after (λ a b, cmp a.1 b.1).

(** The start of a field: the state in which the reader expects one. *)
Definition field_start (s : ParserState) (F : list bytes) : Prop :=
  s = START_FIELD ∨ (s = START_RECORD ∧ F = []).

(** After the characters of a field as written, the reader is in one of
    three states, in each of which a delimiter or a line end saves the
    field. *)
Inductive field_read (F : list bytes) (f : bytes) : ReaderObj → Prop :=
  | read_nothing s : field_start s F → f = [] → field_read F f (Reader s F [])
  | read_plain : f ≠ [] → field_read F f (Reader IN_FIELD F f)
  | read_quoted : field_read F f (Reader QUOTE_IN_QUOTED_FIELD F f).

(** The text of the rows that the reader returns. *)
Definition decode_rows (rows : list (list bytes))
  : option (list (list ustring)) :=
  mapM (mapM decode) rows.

(** Text that a feed or a search result can hold: the characters of XML
    are code points of Unicode other than U+0000 and the surrogates. *)
Definition text (s : ustring) : Prop :=
  Forall (λ c, 0 < c < 1114112 ∧ (c < 55296 ∨ 57344 ≤ c)) s.

(** The text of an identifier that the csv writer takes. *)
Definition ascii_text (s : ustring) : Prop := Forall (λ c, 0 < c < 128) s.

(** ** Vocabulary of the properties of the whole run *)

(** The formatters that look an identifier up. *)
Definition is_lookup (f : formatter) : bool :=
  match f with
  | PlainLookupFormatter | CSVLookupFormatter => true
  | PlainFormatter | CSVFormatter => false
  end.

(** The title and the creators of a subject read off the triples of the
    feed: the first title object in feed order between quotation marks, the
    creator objects in feed order with a semicolon and a space before each
    but the first. *)
Definition feed_title (g : list triple) (s : uri) : ustring :=
  match objects_of g s _titlePredURI with
  | [] => NO_TITLE
  | o :: _ => [34] ++ unicode o ++ [34]
  end.

Definition feed_creators (g : list triple) (s : uri) : ustring :=
  match objects_of g s _creatorPredURI with
  | [] => NO_AUTHORS
  | o :: objs => unicode o ++ flat_map (λ o', u "; " ++ unicode o') objs
  end.


(** The requests that the rendering of a list of gaps sends: one for each
    gap up to and with the first whose rendering raises, none without
    lookup. *)
Fixpoint requests_of (E : env) (f : formatter)
    (missing : list (uri * predicates_t)) : list query :=
  match missing with
  | [] => []
  | gap :: missing' =>
      match title_of gap.2 with
      | Raise _ => []
      | Ok title =>
          (if is_lookup f then [params title] else [])
          ++ match record_of E f gap with
             | Ok _ => requests_of E f missing'
             | Raise _ => []
             end
      end
  end.

(** The same collaborators with dictionaries iterated in the opposite
    order. *)
Definition reversed_perm (E : env) (m : statements_t)
  : reverse (iteritems E m) ≡ₚ map_to_list m :=
  Permutation_trans (reverse_Permutation (iteritems E m))
                    (iteritems_perm E m).

Definition env_reversed (E : env) : env :=
  Env (rdf_parse E) (esearch E) (open_output E) (flush E)
      (λ m, reverse (iteritems E m)) (reversed_perm E).

(** Scalar values of Unicode: the code points that are not surrogates. *)
Definition scalar_values (s : ustring) : Prop :=
  Forall (λ c, c < 1114112 ∧ (c < 55296 ∨ 57344 ≤ c)) s.

(** ** The query string of a request

    [urllib.urlencode(params)]: the pairs of the dictionary, in the order
    in which it is iterated, each as key, equals sign, value, joined with
    ampersands; keys and values pass through [quote_plus], which keeps
    letters, digits, underscore, full stop and hyphen, writes a space as a
    plus sign, and any other octet as a percent sign and two upper-case
    hexadecimal digits. *)

Definition always_safe (c : N) : bool :=
  ((65 <=? c) && (c <=? 90)) || ((97 <=? c) && (c <=? 122))
  || ((48 <=? c) && (c <=? 57)) || (c =? 95) || (c =? 46) || (c =? 45).

Definition hex_digit (n : N) : N := if n <? 10 then 48 + n else 55 + n.

Definition quote_plus_char (c : N) : bytes :=
  if always_safe c then [c]
  else if c =? 32 then [43]
  else [37; hex_digit (c / 16); hex_digit (c mod 16)].

Definition quote_plus (s : bytes) : bytes := flat_map quote_plus_char s.

Definition urlencode (query : list (bytes * bytes)) : bytes :=
  join [38] (map (λ '(k, v), quote_plus k ++ [61] ++ quote_plus v) query).

(** the items of [params] *)
Definition params_items (q : query) : list (bytes * bytes) :=
  [(u "db", db q); (u "field", field q); (u "term", term q)].

(** [url] of [LookupFormatter.format]; [order] is the order in which the
    dictionary [params] is iterated. *)
Definition request_url
    (order : list (bytes * bytes) → list (bytes * bytes)) (title : ustring)
  : ustring :=
  u "http://eutils.ncbi.nlm.nih.gov/entrez/eutils/esearch.fcgi?"
  ++ urlencode (order (params_items (params title))).

(** The characters of a query string. *)
Definition query_char (c : N) : bool :=
  always_safe c || (c =? 43) || (c =? 37) || (c =? 61) || (c =? 38).

(** Octets. *)
Definition octets (s : bytes) : Prop := Forall (λ c, c < 256) s.

(** * Properties *)

(** ** Text *)

Lemma encode_cons_cons (c c2 : N) (s : ustring) :
  encode (c :: c2 :: s) =
  if high_surrogate c && low_surrogate c2
  then utf8_encode_char (surrogate_pair c c2) ++ encode s
  else utf8_encode_char c ++ encode (c2 :: s).
Proof. done. Qed.

Lemma encode_cons (c : N) (s : ustring) :
  high_surrogate c = false → encode (c :: s) = utf8_encode_char c ++ encode s.
Proof.
  intros Hc. destruct s as [|c2 s].
  - change (encode [c]) with (utf8_encode_char c). by rewrite app_nil_r.
  - by rewrite encode_cons_cons, Hc.
Qed.

(** The octets of a concatenation are those of its parts, unless the seam
    is inside a surrogate pair. *)
Lemma encode_app (a b : ustring) :
  (∀ c b', b = c :: b' → low_surrogate c = false) →
  encode (a ++ b) = encode a ++ encode b.
Proof.
  intros Hb.
  cut (encode (a ++ b) = encode a ++ encode b ∧
       ∀ c, encode (c :: a ++ b) = encode (c :: a) ++ encode b); [tauto|].
  induction a as [|c2 a [IH1 IH2]].
  - split; [done|]. intros c. cbn [app].
    change (encode [c]) with (utf8_encode_char c).
    destruct b as [|c2 b]; [by rewrite app_nil_r|].
    by rewrite encode_cons_cons, (Hb c2 b eq_refl), andb_false_r.
  - split; [apply IH2|]. intros c. cbn [app].
    rewrite !encode_cons_cons.
    destruct (high_surrogate c && low_surrogate c2);
      rewrite <- app_assoc; f_equal; [apply IH1|apply IH2].
Qed.

Lemma not_surrogate (c : N) :
  c < 55296 ∨ 57344 ≤ c → high_surrogate c = false ∧ low_surrogate c = false.
Proof.
  intros Hc. unfold high_surrogate, low_surrogate.
  destruct (N.leb_spec 55296 c), (N.ltb_spec c 56320),
    (N.leb_spec 56320 c), (N.ltb_spec c 57344); cbn; split; try done; lia.
Qed.

(** Without a high surrogate nothing is paired. *)
Lemma encode_chars (s : ustring) :
  Forall (λ c, high_surrogate c = false) s →
  encode s = flat_map utf8_encode_char s.
Proof.
  induction 1 as [|c s Hc _ IH]; [done|].
  by rewrite encode_cons, IH.
Qed.

Lemma encode_ascii (s : ustring) :
  Forall (λ c, c < 128) s → encode s = s.
Proof.
  induction 1 as [|c s Hc _ IH]; [done|].
  rewrite encode_cons, IH by (apply not_surrogate; lia).
  unfold utf8_encode_char. by rewrite (proj2 (N.ltb_lt _ _) Hc).
Qed.

(** An ASCII literal between two texts is written as it is, between the
    octets of the one and of the other. *)
Lemma encode_literal (a l b : ustring) :
  forallb (λ c, c <? 128) l = true → l ≠ [] →
  encode (a ++ l ++ b) = encode a ++ l ++ encode b.
Proof.
  intros Hl Hne. rewrite encode_app.
  - f_equal. clear Hne. induction l as [|c l IH]; [done|].
    cbn [forallb] in Hl. apply andb_true_iff in Hl as [Hc%N.ltb_lt Hl].
    cbn [app]. rewrite encode_cons, IH by (done || apply not_surrogate; lia).
    unfold utf8_encode_char. by rewrite (proj2 (N.ltb_lt _ _) Hc).
  - destruct l as [|c l]; [done|]. intros c' b' [= <- _].
    cbn [forallb] in Hl. apply andb_true_iff in Hl as [Hc%N.ltb_lt _].
    apply not_surrogate. lia.
Qed.

Lemma encode_literal_r (a l : ustring) :
  forallb (λ c, c <? 128) l = true → l ≠ [] →
  encode (a ++ l) = encode a ++ l.
Proof.
  intros Hl Hne. rewrite <- (app_nil_r l) at 1.
  rewrite encode_literal by done. by rewrite app_nil_r.
Qed.

Lemma encode_literal_l (l b : ustring) :
  forallb (λ c, c <? 128) l = true → l ≠ [] →
  encode (l ++ b) = l ++ encode b.
Proof. intros Hl Hne. by apply (encode_literal [] l b). Qed.

(** ** The statement index *)

Lemma parsePubs_loop_foldl (g : list triple) :
  parsePubs_loop g = (foldl parsePubs_step ∅ g, length g).
Proof.
  unfold parsePubs_loop.
  change (length g) with (0 + length g)%nat.
  generalize (∅ : statements_t) 0%nat.
  induction g as [|t g IH]; intros st n; cbn [foldl length].
  - f_equal. lia.
  - rewrite IH. f_equal. lia.
Qed.

Lemma objects_of_snoc (g : list triple) (t : triple) (s p : uri) :
  objects_of (g ++ [t]) s p =
  objects_of g s p ++
  (if decide (t.1.1 = s ∧ t.1.2 = p) then [t.2] else []).
Proof.
  unfold objects_of. rewrite omap_app. f_equal.
  destruct t as [[s' p'] o]; simpl. by case_decide.
Qed.

Lemma parsePubs_step_objects_at (st : statements_t) s p o s' p' :
  objects_at (parsePubs_step st (s, p, o)) s' p' =
  if decide (s = s' ∧ p = p')
  then Some (default [] (objects_at st s p) ++ [o])
  else objects_at st s' p'.
Proof.
  unfold parsePubs_step, objects_at.
  destruct (decide (s = s')) as [->|Hs].
  - rewrite lookup_insert_eq.
    destruct (decide (p = p')) as [->|Hp].
    + rewrite lookup_insert_eq, decide_True; [|done].
      by destruct (st !! s').
    + rewrite lookup_insert_ne, decide_False; [|tauto|done].
      destruct (st !! s'); simpl; [done|]. by rewrite lookup_empty.
  - rewrite lookup_insert_ne, decide_False; [done|tauto|done].
Qed.

Lemma index_objects_at (g : list triple) (s p : uri) :
  objects_at (foldl parsePubs_step ∅ g) s p =
  match objects_of g s p with [] => None | objs => Some objs end.
Proof.
  induction g as [|[[s' p'] o] g IH] using rev_ind.
  - unfold objects_at. simpl. by rewrite lookup_empty.
  - rewrite foldl_app. cbn [foldl].
    rewrite parsePubs_step_objects_at, objects_of_snoc.
    cbn [fst snd]. case_decide as H.
    + destruct H as [-> ->]. rewrite IH.
      by destruct (objects_of g s p).
    + by rewrite IH, app_nil_r.
Qed.

Lemma index_nonempty (g : list triple) (s p : uri) (preds : predicates_t)
    (objs : list node) :
  foldl parsePubs_step ∅ g !! s = Some preds →
  preds !! p = Some objs → objs ≠ [].
Proof.
  intros Hs Hp. pose proof (index_objects_at g s p) as H.
  unfold objects_at in H. rewrite Hs, Hp in H.
  destruct (objects_of g s p); [done|]. by injection H as ->.
Qed.

Lemma index_subjects (g : list triple) (s : uri) :
  is_Some (foldl parsePubs_step ∅ g !! s) ↔ s ∈ subjects_of g.
Proof.
  unfold subjects_of.
  induction g as [|[[s' p'] o] g IH] using rev_ind.
  - simpl. rewrite lookup_empty. split; [by intros [? ?]|by intros ?%elem_of_nil].
  - rewrite foldl_app, map_app. cbn [foldl map fst].
    unfold parsePubs_step at 1.
    rewrite lookup_insert, elem_of_app, list_elem_of_singleton.
    case_decide as Hs; subst.
    + split; [by right|by intros _; eexists].
    + rewrite IH. split; [by left|]. intros [?| ->]; [done|by destruct Hs].
Qed.

Lemma index_size (g : list triple) :
  size (foldl parsePubs_step ∅ g) = length (remove_dups (subjects_of g)).
Proof.
  rewrite <- size_dom, <- (size_list_to_set (C := gset uri)) by apply NoDup_remove_dups.
  f_equal. apply set_eq. intros s.
  rewrite elem_of_dom, index_subjects, elem_of_list_to_set, elem_of_remove_dups.
  done.
Qed.

(** What [parsePubs] does: two log records around the loop, or one and the
    exception of the RDF library. *)
Lemma parsePubs_run (E : env) (url : uri) (w : world) :
  parsePubs E url w =
  match rdf_parse E url with
  | Ok g =>
      (Ok (foldl parsePubs_step ∅ g),
       World (output w) (closed w)
         (log w ++ [(INFO, u "Reading from " ++ url);
                    (INFO, u "Total statements in " ++ url ++ u ": "
                           ++ decimal (length g))])
         (requests w))
  | Raise e =>
      (Raise e,
       World (output w) (closed w)
         (log w ++ [(INFO, u "Reading from " ++ url)]) (requests w))
  end.
Proof.
  unfold parsePubs, mbind, M_bind, logging, lift. cbn.
  destruct (rdf_parse E url) as [g|e]; [|done].
  rewrite parsePubs_loop_foldl. cbn. by rewrite <- app_assoc.
Qed.

(** C1: [parsePubs] returns, for the triples that the RDF library gives, a
    dictionary with one record for each subject of a triple and for no
    other text, in which the record of a subject holds a predicate exactly
    when the subject has a triple with that predicate, and holds for it the
    objects of those triples in their order of arrival. *)
Theorem parsePubs_index (E : env) (url : uri) (g : list triple) (w : world) :
  rdf_parse E url = Ok g →
  ∃ statements w',
    parsePubs E url w = (Ok statements, w') ∧ indexes g statements.
Proof.
  intros Hg. rewrite parsePubs_run, Hg. eexists _, _. split; [done|].
  split; [apply index_subjects|]. split; [apply index_size|].
  intros s preds p objs Hs.
  pose proof (index_objects_at g s p) as H.
  unfold objects_at in H. rewrite Hs in H. rewrite H.
  destruct (objects_of g s p) as [|o os].
  - split; [done|]. by intros [? ->].
  - split; [by intros [= <-]|]. by intros [_ ->].
Qed.

Lemma parsePubs_index_witness :
  rdf_parse (example_env feed_ABC (Ok [])) _defaultURL = Ok feed_ABC ∧
  ∃ statements w',
    parsePubs (example_env feed_ABC (Ok [])) _defaultURL world0
    = (Ok statements, w') ∧ indexes feed_ABC statements.
Proof.
  split; [reflexivity|].
  apply (parsePubs_index (example_env feed_ABC (Ok [])) _defaultURL feed_ABC
           world0).
  reflexivity.
Defined.

(** ** The gap detector *)

Lemma missing_loop_filter (items acc : list (uri * predicates_t)) :
  foldl (λ missing '(subject, predicates),
           if decide (_pubMedIDPredURI ∉ dom predicates)
           then missing ++ [(subject, predicates)]
           else missing) acc items =
  acc ++ filter (λ x, x.2 !! _pubMedIDPredURI = None) items.
Proof.
  revert acc. induction items as [|[s preds] l IH]; intros acc.
  - by rewrite app_nil_r.
  - cbn [foldl]. rewrite IH, filter_cons. cbn [snd].
    destruct (decide (preds !! _pubMedIDPredURI = None)) as [Hn|Hn].
    + rewrite decide_True by by apply not_elem_of_dom.
      by rewrite <- app_assoc.
    + rewrite decide_False; [done|]. by rewrite not_elem_of_dom.
Qed.

Lemma findMissingPubMedIDs_filter (E : env) (statements : statements_t)
    (w : world) :
  (findMissingPubMedIDs E statements w).1 =
  Ok (filter (λ x, x.2 !! _pubMedIDPredURI = None) (iteritems E statements)).
Proof.
  unfold findMissingPubMedIDs, mbind, M_bind, logging, mret, M_ret.
  cbn [fst]. f_equal. apply missing_loop_filter.
Qed.

Lemma findMissingPubMedIDs_world (E : env) (statements : statements_t)
    (w : world) :
  (findMissingPubMedIDs E statements w).2 =
  World (output w) (closed w)
    (log w ++ [(INFO, u "Checking subjects ("
                      ++ decimal (size statements) ++ u " in total)")])
    (requests w).
Proof. done. Qed.

Lemma elem_of_missing (E : env) (statements : statements_t) (subject : uri)
    (predicates : predicates_t) :
  (subject, predicates)
    ∈ filter (λ x, x.2 !! _pubMedIDPredURI = None) (iteritems E statements)
  ↔ statements !! subject = Some predicates ∧
    predicates !! _pubMedIDPredURI = None.
Proof.
  rewrite list_elem_of_filter, (iteritems_perm E), elem_of_map_to_list.
  cbn [snd]. tauto.
Qed.

Lemma NoDup_missing (E : env) (statements : statements_t) :
  NoDup (filter (λ x, x.2 !! _pubMedIDPredURI = None)
           (iteritems E statements)).*1.
Proof.
  eapply NoDup_fmap_fst.
  - intros s p1 p2 [H1 _]%elem_of_missing [H2 _]%elem_of_missing. congruence.
  - apply NoDup_filter. rewrite (iteritems_perm E). apply NoDup_map_to_list.
Qed.

(** C2: [findMissingPubMedIDs] returns the pair of a subject and its record
    if and only if the record has no entry for the PubMed identifier
    predicate, each such pair once; a subject whose record has the
    predicate is not returned, whatever else its record lacks. *)
Theorem findMissingPubMedIDs_iff (E : env) (statements : statements_t)
    (w : world) :
  ∃ missing w',
    findMissingPubMedIDs E statements w = (Ok missing, w') ∧
    NoDup missing.*1 ∧
    (∀ subject predicates,
       (subject, predicates) ∈ missing ↔
       statements !! subject = Some predicates ∧
       predicates !! _pubMedIDPredURI = None) ∧
    (∀ subject predicates,
       statements !! subject = Some predicates →
       is_Some (predicates !! _pubMedIDPredURI) →
       subject ∉ missing.*1).
Proof.
  pose proof (findMissingPubMedIDs_filter E statements w) as Hf.
  destruct (findMissingPubMedIDs E statements w) as [r w'].
  cbn [fst] in Hf. subst r. eexists _, w'. split; [done|].
  split; [apply NoDup_missing|]. split; [apply elem_of_missing|].
  intros subject predicates Hs [v Hv] ([s' p'] & Heq & Hin)%list_elem_of_fmap.
  cbn in Heq. subst s'. apply elem_of_missing in Hin as [H1 H2]. congruence.
Qed.

(** ** The fields of a record *)

Lemma title_of_lookup (preds : predicates_t) :
  title_of preds =
  match preds !! _titlePredURI with
  | None => Ok NO_TITLE
  | Some (o :: _) => Ok ([34] ++ unicode o ++ [34])
  | Some [] => Raise IndexError
  end.
Proof.
  unfold title_of, getitem. case_decide as Hin.
  - apply elem_of_dom in Hin as [objs Hobjs]. rewrite Hobjs.
    by destruct objs.
  - apply not_elem_of_dom in Hin. by rewrite Hin.
Qed.

Lemma creators_of_lookup (preds : predicates_t) :
  creators_of preds =
  match preds !! _creatorPredURI with
  | None => NO_AUTHORS
  | Some objs => join (u "; ") (map unicode objs)
  end.
Proof.
  unfold creators_of. case_decide as Hin.
  - apply elem_of_dom in Hin as [objs Hobjs]. by rewrite Hobjs.
  - apply not_elem_of_dom in Hin. by rewrite Hin.
Qed.

(** [join] written out: the first text, then the separator before each of
    the others. *)
Lemma join_cons (sep x : ustring) (l : list ustring) :
  join sep (x :: l) = x ++ flat_map (λ y, sep ++ y) l.
Proof.
  revert x. induction l as [|y l IH]; intros x.
  - cbn. by rewrite app_nil_r.
  - change (join sep (x :: y :: l)) with (x ++ sep ++ join sep (y :: l)).
    cbn [flat_map]. by rewrite IH, <- app_assoc.
Qed.

Lemma creators_of_values (preds : predicates_t) :
  creators_of preds =
  match preds !! _creatorPredURI with
  | None => NO_AUTHORS
  | Some [] => []
  | Some (o :: os) => unicode o ++ flat_map (λ o', u "; " ++ unicode o') os
  end.
Proof.
  rewrite creators_of_lookup.
  destruct (preds !! _creatorPredURI) as [[|o os]|]; [done| |done].
  cbn [map]. rewrite join_cons. f_equal.
  induction os as [|o' os IH]; [done|]. cbn [map flat_map]. by rewrite IH.
Qed.

Lemma index_title_ok (g : list triple) (s : uri) (preds : predicates_t) :
  foldl parsePubs_step ∅ g !! s = Some preds →
  ∃ title, title_of preds = Ok title.
Proof.
  intros Hs. rewrite title_of_lookup.
  destruct (preds !! _titlePredURI) as [[|o os]|] eqn:Hobjs; eauto.
  by destruct (index_nonempty _ _ _ _ _ Hs Hobjs).
Qed.

(** One turn of the loop of [outputBadPublications]. *)
Lemma for_each_cons {A} (x : A) (l : list A) (body : A → M unit) (w : world) :
  for_each (x :: l) body w =
  match body x w with
  | (Ok _, w') => for_each l body w'
  | (Raise e, w') => (Raise e, w')
  end.
Proof. done. Qed.

(** C10: in the dictionary that [parsePubs] returns every value list is
    non-empty.  So for a record of it that has the title predicate the
    first title value exists and the title is rendered, for a record that
    has the creator predicate at least one value is joined, and rendering
    the title raises for no record of the index. *)
Theorem index_values_nonempty (E : env) (url : uri) (w w' : world)
    (statements : statements_t) :
  parsePubs E url w = (Ok statements, w') →
  (∀ s preds p objs,
     statements !! s = Some preds → preds !! p = Some objs → objs ≠ []) ∧
  (∀ s preds,
     statements !! s = Some preds →
     (_titlePredURI ∈ dom preds →
      ∃ o os, preds !! _titlePredURI = Some (o :: os) ∧
              title_of preds = Ok ([34] ++ unicode o ++ [34])) ∧
     (_creatorPredURI ∈ dom preds →
      ∃ o os, preds !! _creatorPredURI = Some (o :: os) ∧
              creators_of preds = join (u "; ") (map unicode (o :: os))) ∧
     (∃ title, title_of preds = Ok title)).
Proof.
  rewrite parsePubs_run. destruct (rdf_parse E url) as [g|e]; [|done].
  intros [= <- _].
  split; [intros s preds p objs; apply index_nonempty|].
  intros s preds Hs. repeat split.
  - intros [[|o os] Hobjs]%elem_of_dom.
    + by destruct (index_nonempty _ _ _ _ _ Hs Hobjs).
    + exists o, os. by rewrite title_of_lookup, Hobjs.
  - intros [[|o os] Hobjs]%elem_of_dom.
    + by destruct (index_nonempty _ _ _ _ _ Hs Hobjs).
    + exists o, os. by rewrite creators_of_lookup, Hobjs.
  - by apply (index_title_ok g s).
Qed.

Lemma index_values_nonempty_witness :
  ∃ statements w',
    parsePubs (example_env feed_ABC (Ok [])) _defaultURL world0
    = (Ok statements, w') ∧
    ∀ s preds p objs,
      statements !! s = Some preds → preds !! p = Some objs → objs ≠ [].
Proof.
  eexists _, _. split; [reflexivity|].
  refine (proj1 (index_values_nonempty (example_env feed_ABC (Ok []))
                   _defaultURL world0 _ _ _)).
  reflexivity.
Defined.

(** ** The order of the report *)

Lemma cmp_values (a b : ustring) :
  cmp a b = (-1)%Z ∨ cmp a b = 0%Z ∨ cmp a b = 1%Z.
Proof.
  revert b. induction a as [|x a IH]; intros [|y b]; cbn [cmp]; auto.
  destruct (x <? y); [auto|]. destruct (y <? x); auto.
Qed.

Lemma cmp_eq (a b : ustring) : cmp a b = 0%Z ↔ a = b.
Proof.
  revert b. induction a as [|x a IH]; intros [|y b]; cbn [cmp]; try done.
  destruct (N.ltb_spec x y); [split; [done|intros [= -> _]; lia]|].
  destruct (N.ltb_spec y x); [split; [done|intros [= -> _]; lia]|].
  assert (x = y) as -> by lia. rewrite IH. split; [by intros ->|by intros [= ->]].
Qed.

Lemma cmp_flip (a b : ustring) : cmp b a = (- cmp a b)%Z.
Proof.
  revert b. induction a as [|x a IH]; intros [|y b]; cbn [cmp]; try done.
  destruct (N.ltb_spec x y), (N.ltb_spec y x); try done; lia.
Qed.

Lemma cmp_trans (a b c : ustring) :
  (cmp a b ≤ 0)%Z → (cmp b c ≤ 0)%Z → (cmp a c ≤ 0)%Z.
Proof.
  revert b c. induction a as [|x a IH]; intros [|y b] [|z c]; cbn [cmp];
    try done.
  destruct (N.ltb_spec x y), (N.ltb_spec y x), (N.ltb_spec y z),
    (N.ltb_spec z y), (N.ltb_spec x z), (N.ltb_spec z x);
    try done; try lia; eauto.
Qed.

(** [cmp] is the lexicographic order of the code points. *)
Lemma before_lexico (a b : ustring) : before a b ↔ lexico a b.
Proof.
  unfold before. revert b.
  induction a as [|x a IH]; intros [|y b]; cbn [cmp]; try done.
  unfold lexico, list_lexico. fold (@list_lexico N _).
  unfold lexico at 1, prod_lexico. cbn [fst snd].
  unfold lexico at 1, N_lexico.
  change (list_lexico a b) with (lexico a b). rewrite <- IH.
  destruct (N.ltb_spec x y); [tauto|].
  destruct (N.ltb_spec y x).
  - split; [done|]. intros [?|[-> _]]; lia.
  - split; [intros ?; right; split; [lia|done]|]. intros [?|[_ ?]]; [lia|done].
Qed.

#[global] Instance before_strict : StrictOrder before.
Proof.
  split.
  - intros a H. unfold before in H.
    by rewrite (proj2 (cmp_eq a a) eq_refl) in H.
  - intros a b c Hab Hbc. unfold before in *.
    pose proof (cmp_trans a b c). pose proof (cmp_values a c) as [?|[Hz|?]];
      [done| |lia].
    apply cmp_eq in Hz as ->. rewrite cmp_flip in Hbc. lia.
Qed.

Section by_subject.
Context {V : Type}.

#[local] Instance by_subject_total : Total (@by_subject V).
Proof.
  intros a b. unfold by_subject, not_after.
  rewrite (cmp_flip a.1 b.1). lia.
Qed.

#[local] Instance by_subject_trans : Transitive (@by_subject V).
Proof. intros a b c. apply cmp_trans. Qed.

Lemma sort_Permutation (l : list (uri * V)) :
  sort (λ a b, cmp a.1 b.1) l ≡ₚ l.
Proof. apply merge_sort_Permutation. Qed.

(** Sorted with the comparison of [checkPublications], pairs with
    different subjects are in strictly ascending order of subject. *)
Lemma sort_ascending (l : list (uri * V)) :
  NoDup l.*1 →
  StronglySorted before (sort (λ a b, cmp a.1 b.1) l).*1.
Proof.
  intros Hnd.
  assert (Hs : StronglySorted by_subject
                 (sort (λ a b : uri * V, cmp a.1 b.1) l))
    by apply (StronglySorted_merge_sort by_subject l).
  rewrite <- (sort_Permutation l) in Hnd.
  set (sorted := sort (λ a b : uri * V, cmp a.1 b.1) l) in *.
  clearbody sorted.
  induction Hs as [|a l' Hs IH Hall]; [constructor|].
  cbn [fmap list_fmap] in *. apply NoDup_cons in Hnd as [Hnin Hnd].
  constructor; [by apply IH|].
  apply Forall_fmap, Forall_forall. intros b Hb.
  rewrite Forall_forall in Hall. specialize (Hall b Hb).
  unfold by_subject, not_after in Hall. unfold before. cbn.
  destruct (cmp_values a.1 b.1) as [?|[Hz|?]]; [done| |lia].
  apply cmp_eq in Hz. destruct Hnin. rewrite Hz.
  apply list_elem_of_fmap. by exists b.
Qed.
End by_subject.

(** ** The formatters *)

Lemma plain_message (subject title creators : ustring) :
  encode (subject ++ u ": " ++ title ++ u ", Creators: " ++ creators ++ [10])
  = plain_line subject title creators.
Proof.
  rewrite !encode_literal by done. by rewrite encode_literal_r by done.
Qed.

Lemma plain_lookup_message (subject title creators : ustring)
    (pubMedID : option ustring) :
  encode (subject ++ u ": " ++ title ++ u ", Creators: " ++ creators
          ++ u ", Suggested PubMedID: "
          ++ match pubMedID with
             | Some (c :: i) => c :: i
             | _ => NONE
             end
          ++ [10])
  = plain_lookup_line subject title creators (shown_id pubMedID).
Proof.
  rewrite !encode_literal by done. by rewrite encode_literal_r by done.
Qed.

(** The run of [format] for a gap writes the record of the gap and nothing
    else, or raises and writes nothing. *)
Lemma format_gap_run (E : env) (f : formatter) (subject : uri)
    (preds : predicates_t) (w : world) :
  let run :=
    (title ← lift (title_of preds);
     format E f subject title (creators_of preds)) w in
  match record_of E f (subject, preds) with
  | Ok b => run.1 = Ok () ∧ output run.2 = output w ++ [b]
  | Raise e => run.1 = Raise e ∧ output run.2 = output w
  end ∧ closed run.2 = closed w ∧ log run.2 = log w.
Proof.
  unfold record_of. cbv beta iota zeta delta [mbind M_bind result_bind lift].
  destruct (title_of preds) as [title|e]; [|done].
  destruct f;
    cbv beta iota zeta
      delta [format LookupFormatter_format mbind M_bind result_bind lift send
             PlainFormatter_format CSVFormatter_format write
             PlainLookupFormatter_formatWithSuggestedPubMedID
             CSVLookupFormatter_formatWithSuggestedPubMedID
             fst snd output closed log requests].
  - by rewrite plain_message.
  - destruct (esearch E (params title)) as [results|e]; [|done].
    by rewrite plain_lookup_message.
  - done.
  - destruct (esearch E (params title)) as [results|e]; [|done].
    by destruct (csv_str (head results)) as [pubMedID|e].
Qed.

(** ** The reporter *)

Lemma for_each_records (E : env) (f : formatter)
    (missing : list (uri * predicates_t)) (w : world) :
  let run :=
    for_each missing (λ '(subject, preds),
      title ← lift (title_of preds);
      format E f subject title (creators_of preds)) w in
  run.1 = raised (records_of E f missing).2 ∧
  output run.2 = output w ++ (records_of E f missing).1 ∧
  closed run.2 = closed w ∧ log run.2 = log w.
Proof.
  revert w. induction missing as [|[subject preds] missing IH]; intros w.
  - cbn. by rewrite app_nil_r.
  - cbn zeta. rewrite for_each_cons. cbn [records_of].
    pose proof (format_gap_run E f subject preds w) as H. cbn zeta in H.
    destruct ((title ← lift (title_of preds);
               format E f subject title (creators_of preds)) w)
      as [[[]|e] w1]; cbn [fst snd] in H;
      destruct (record_of E f (subject, preds)) as [b|e'];
      destruct H as ([H1 H2] & H3 & H4); try done.
    + specialize (IH w1). cbn zeta in IH.
      destruct (records_of E f missing) as [bs e].
      cbn [fst snd] in *. destruct IH as (-> & -> & -> & ->).
      by rewrite H2, H3, H4, <- app_assoc.
    + cbn [fst snd raised]. rewrite app_nil_r. by injection H1 as ->.
Qed.

Lemma outputBadPublications_run (E : env) (f : formatter)
    (missing : list (uri * predicates_t)) (w : world) :
  let run := outputBadPublications E missing f w in
  run.1 = raised (records_of E f missing).2 ∧
  output run.2 = output w ++ (records_of E f missing).1 ∧
  closed run.2 = closed w ∧
  log run.2 =
    log w ++ [(INFO, u "Displaying bad publications using formatter "
                     ++ repr f)].
Proof.
  unfold outputBadPublications, mbind, M_bind, logging.
  set (w1 := World _ _ _ _).
  apply (for_each_records E f missing w1).
Qed.


(** ** [checkPublications] *)

Lemma checkPublications_eq (E : env) (url : uri) (f : formatter) (w : world) :
  checkPublications E url f w =
  match parsePubs E url w with
  | (Ok statements, w1) =>
      match findMissingPubMedIDs E statements w1 with
      | (Ok missing, w2) =>
          outputBadPublications E (sort (λ a b, cmp a.1 b.1) missing) f
            (World (output w2) (closed w2)
               (log w2 ++ [(INFO, u "Publications without pubmed IDs: "
                                  ++ decimal (length missing))])
               (requests w2))
      | (Raise e, w2) => (Raise e, w2)
      end
  | (Raise e, w1) => (Raise e, w1)
  end.
Proof.
  unfold checkPublications, mbind, M_bind.
  destruct (parsePubs E url w) as [[statements|e] w1]; [|done].
  by destruct (findMissingPubMedIDs E statements w1) as [[missing|e] w2].
Qed.

Lemma checkPublications_run (E : env) (url : uri) (f : formatter) (w : world) :
  let run := checkPublications E url f w in
  closed run.2 = closed w ∧
  match rdf_parse E url with
  | Ok g =>
      run.1 = raised (records_of E f (gaps E g)).2 ∧
      output run.2 = output w ++ (records_of E f (gaps E g)).1
  | Raise e => run.1 = Raise e ∧ output run.2 = output w
  end.
Proof.
  cbv zeta. rewrite checkPublications_eq, parsePubs_run.
  destruct (rdf_parse E url) as [g|e]; [|done].
  set (w1 := World _ _ _ _).
  pose proof (findMissingPubMedIDs_filter E (foldl parsePubs_step ∅ g) w1)
    as Hm.
  pose proof (findMissingPubMedIDs_world E (foldl parsePubs_step ∅ g) w1)
    as Hw.
  destruct (findMissingPubMedIDs _ _ _) as [r w2]. cbn [fst snd] in Hm, Hw.
  subst r w2. set (w3 := World _ _ _ _).
  unfold gaps. rewrite parsePubs_loop_foldl. cbn [fst].
  set (missing := sort _ _).
  pose proof (outputBadPublications_run E f missing w3) as H.
  cbv zeta in H. destruct H as (H1 & H2 & H3 & _).
  by rewrite H1, H2, H3.
Qed.
(** ** The fields that the reporter renders *)

(** C4, as the code has it: the title handed to the formatter is the
    sentinel [NO_TITLE] when the record has no title predicate, and
    otherwise the first title value between quotation marks (a value list
    without a first value raises, it is not given the sentinel), so the
    title is the sentinel exactly when the predicate is absent; the
    creators are the sentinel [NO_AUTHORS] when the record has no creator
    predicate, and otherwise the values of the creator predicate in their
    order with a semicolon and a space before each but the first.  These
    are the fields of the record that the reporter writes for the gap, in
    plain format and as CSV. *)
Theorem rendered_title_and_creators (preds : predicates_t) :
  title_of preds =
    match preds !! _titlePredURI with
    | None => Ok NO_TITLE
    | Some (o :: _) => Ok ([34] ++ unicode o ++ [34])
    | Some [] => Raise IndexError
    end ∧
  (title_of preds = Ok NO_TITLE ↔ preds !! _titlePredURI = None) ∧
  creators_of preds =
    match preds !! _creatorPredURI with
    | None => NO_AUTHORS
    | Some [] => []
    | Some (o :: os) => unicode o ++ flat_map (λ o', u "; " ++ unicode o') os
    end ∧
  ∀ (E : env) (subject : uri) (w : world),
    output (outputBadPublications E [(subject, preds)] PlainFormatter w).2 =
      output w ++
      match title_of preds with
      | Ok title =>
          [encode subject ++ u ": " ++ encode title ++ u ", Creators: "
           ++ encode (creators_of preds) ++ [10]]
      | Raise _ => []
      end ∧
    output (outputBadPublications E [(subject, preds)] CSVFormatter w).2 =
      output w ++
      match title_of preds with
      | Ok title =>
          [csv_record [encode subject; encode title;
                       encode (creators_of preds)]]
      | Raise _ => []
      end.
Proof.
  split; [apply title_of_lookup|]. split; [|split; [apply creators_of_values|]].
  - rewrite title_of_lookup.
    destruct (preds !! _titlePredURI) as [[|o os]|]; [done| |done].
    split; [|done]. intros H. vm_compute in H. by injection H.
  - intros E subject w. split.
    + destruct (outputBadPublications_run E PlainFormatter
                  [(subject, preds)] w) as (_ & -> & _).
      f_equal. cbn [records_of record_of].
      by destruct (title_of preds) as [title|e].
    + destruct (outputBadPublications_run E CSVFormatter
                  [(subject, preds)] w) as (_ & -> & _).
      f_equal. cbn [records_of record_of].
      by destruct (title_of preds) as [title|e].
Qed.

(** C4 as stated fails for the creators: a record whose creator predicate
    is present, with the text of the sentinel as its only value, is
    rendered with the sentinel too. *)
Lemma creators_sentinel_counterexample :
  let preds : predicates_t := {[ _creatorPredURI := [Literal NO_AUTHORS] ]} in
  preds !! _creatorPredURI ≠ None ∧ creators_of preds = NO_AUTHORS.
Proof.
  cbv zeta. rewrite creators_of_values, lookup_singleton_eq.
  split; [done|]. cbn [unicode flat_map]. by rewrite app_nil_r.
Qed.


(** ** The report of a run *)

Lemma gaps_ascending (E : env) (g : list triple) :
  StronglySorted before (gaps E g).*1.
Proof. apply sort_ascending, NoDup_missing. Qed.

Lemma gaps_Permutation (E : env) (g : list triple) :
  gaps E g ≡ₚ filter (λ x, x.2 !! _pubMedIDPredURI = None)
                (iteritems E (parsePubs_loop g).1).
Proof. apply sort_Permutation. Qed.

Lemma gaps_in_index (E : env) (g : list triple) (gap : uri * predicates_t) :
  gap ∈ gaps E g → foldl parsePubs_step ∅ g !! gap.1 = Some gap.2.
Proof.
  rewrite gaps_Permutation, parsePubs_loop_foldl. destruct gap as [s preds].
  by intros [? _]%elem_of_missing.
Qed.

(** Without lookup no gap of a feed fails to render. *)
Lemma records_of_no_lookup (E : env) (f : formatter) (g : list triple) :
  f = PlainFormatter ∨ f = CSVFormatter →
  (records_of E f (gaps E g)).2 = None.
Proof.
  intros Hf.
  assert (H : Forall (λ gap, ∃ b, record_of E f gap = Ok b) (gaps E g)).
  { apply Forall_forall. intros [s preds] Hin.
    apply gaps_in_index, index_title_ok in Hin as [title Ht].
    unfold record_of. cbn [fst snd] in Ht. rewrite Ht.
    destruct Hf as [-> | ->]; eauto. }
  induction H as [|gap l [b Hb] _ IH]; [done|].
  cbn [records_of]. rewrite Hb. by destruct (records_of E f l).
Qed.




(** ** [main] and the exit status *)











(** ** The lookup formatters *)

(** C5, as the code has it: in plain format with lookup the record written
    is the octets of subject, colon, space, title, the creators label, the
    creators, then the label [, Suggested PubMedID: ] (not [Suggested ID]),
    the identifier or the sentinel [NONE] when there is none (or an empty
    one), and a line feed. *)
Theorem plain_lookup_record (subject title creators : ustring)
    (pubMedID : option ustring) (w : world) :
  PlainLookupFormatter_formatWithSuggestedPubMedID
    subject title creators pubMedID w =
  (Ok (),
   World
     (output w ++
      [encode subject ++ u ": " ++ encode title ++ u ", Creators: "
       ++ encode creators ++ u ", Suggested PubMedID: "
       ++ encode (match pubMedID with
                  | Some (c :: i) => c :: i
                  | _ => NONE
                  end)
       ++ [10]])
     (closed w) (log w) (requests w)).
Proof.
  unfold PlainLookupFormatter_formatWithSuggestedPubMedID, write.
  by rewrite plain_lookup_message.
Qed.

(** C5 as stated fails: the line written for a suggestion differs from the
    line with the label of the specification. *)
Lemma plain_lookup_label_counterexample :
  output (PlainLookupFormatter_formatWithSuggestedPubMedID
            (u "B") (u "T") (u "X") (Some (u "42")) world0).2
  ≠ [spec_plain_lookup_line (u "B") (u "T") (u "X") (u "42")].
Proof. vm_compute. discriminate. Qed.

(** A lookup formatter sends one request for a record, with the title it
    was given as term. *)
Lemma lookup_sends (E : env) (f : formatter)
    (subject title creators : ustring) (w : world) :
  f = PlainLookupFormatter ∨ f = CSVLookupFormatter →
  requests (format E f subject title creators w).2
  = requests w ++ [Query (u "pubmed") (u "title") (encode title)].
Proof.
  intros [-> | ->];
    cbv beta iota zeta
      delta [format LookupFormatter_format mbind M_bind lift send
             PlainLookupFormatter_formatWithSuggestedPubMedID
             CSVLookupFormatter_formatWithSuggestedPubMedID write];
    fold (params title);
    destruct (esearch E (params title)) as [results|e]; try done.
  by destruct (csv_str (head results)).
Qed.

(** The title it is given is the rendered one: the term sent for a record
    with a title is the first title value between quotation marks. *)
Lemma lookup_term (preds : predicates_t) (o : node) (os : list node) :
  preds !! _titlePredURI = Some (o :: os) →
  ∃ title, title_of preds = Ok title ∧
           term (params title) = [34] ++ encode (unicode o) ++ [34].
Proof.
  intros Ht. rewrite title_of_lookup, Ht. eexists. split; [done|].
  unfold params. cbn [term].
  by rewrite encode_literal_l, encode_literal_r by done.
Qed.

(** C6 fails on the code: the term of the request is the title as it is
    rendered for the record, between quotation marks, and the sentinel
    [NO_TITLE] for a record without a title; it is not the title value.  For
    the feed with the publication B titled Foo and the publication C
    without a title, two requests are sent: *)
Theorem lookup_term_is_rendered_title :
  requests (script (example_env feed_ABC (Ok [])) (Options false None true)
              [u "badpubs"]).2
  = [ Query (u "pubmed") (u "title") ([34] ++ u "Foo" ++ [34]);
      Query (u "pubmed") (u "title")
        ([194; 171] ++ u "NO TITLE" ++ [194; 187]) ] ∧
  [34] ++ u "Foo" ++ [34] ≠ encode (unicode (Literal (u "Foo"))).
Proof. split; [by vm_compute|]. vm_compute. discriminate. Qed.

Lemma csv_str_ascii (id : ustring) :
  Forall (λ c, c < 128) id → csv_str (Some id) = Ok id.
Proof.
  intros Hascii. unfold csv_str.
  assert (forallb (λ c, c <? 128) id = true) as ->; [|done].
  apply forallb_forall. intros c Hc. apply N.ltb_lt.
  rewrite Forall_forall in Hascii. by apply Hascii, list_elem_of_In.
Qed.




(** ** The csv reader on the lines of a file *)

Lemma process_chars_app (r : ReaderObj) (a b : bytes) :
  process_chars r (a ++ b) = process_chars r a ≫= λ r', process_chars r' b.
Proof.
  revert r. induction a as [|c a IH]; intros r; [done|].
  cbn [app process_chars]. destruct (c =? 0); [done|].
  destruct (parse_process_char r c) as [r'|]; [|done]. apply IH.
Qed.

Lemma readlines_fail (data cur : bytes) (r : ReaderObj) :
  process_chars r cur = None → Reader_iternext r (readlines cur data) = None.
Proof.
  revert cur. induction data as [|c data IH]; intros cur Hcur.
  - cbn [readlines]. case_bool_decide as Hnil; [by subst cur|].
    cbn [Reader_iternext]. unfold process_line. by rewrite Hcur.
  - cbn [readlines].
    assert (process_chars r (cur ++ [c]) = None) as Hc
      by by rewrite process_chars_app, Hcur.
    destruct (c =? 10); [|by apply IH].
    cbn [Reader_iternext]. unfold process_line. by rewrite Hc.
Qed.

Lemma readlines_stream (data cur : bytes) (r r' : ReaderObj) :
  process_chars r cur = Some r' →
  Reader_iternext r (readlines cur data)
  = read_stream r' (negb (bool_decide (cur = []))) data.
Proof.
  revert cur r r'. induction data as [|c data IH]; intros cur r r' Hcur.
  - cbn [readlines read_stream]. case_bool_decide as Hnil.
    + subst cur. by injection Hcur as ->.
    + cbn [negb Reader_iternext]. unfold process_line. rewrite Hcur.
      cbn [mbind option_bind].
      destruct (parse_process_char r' 0) as [r2|]; [|done].
      cbn [mbind option_bind]. by case_decide.
  - cbn [readlines read_stream].
    assert (Hc : process_chars r (cur ++ [c])
                 = if c =? 0 then None else parse_process_char r' c).
    { rewrite process_chars_app, Hcur. cbn [mbind option_bind process_chars].
      destruct (c =? 0); [done|]. by destruct (parse_process_char r' c). }
    destruct (N.eqb_spec c 0) as [->|Hc0].
    { cbn [N.eqb]. by apply readlines_fail. }
    destruct (N.eqb_spec c 10) as [->|Hc10].
    + cbn [Reader_iternext]. unfold process_line. rewrite Hc.
      destruct (parse_process_char r' 10) as [r1|]; [|done].
      cbn [mbind option_bind].
      destruct (parse_process_char r1 0) as [r2|]; [|done].
      cbn [mbind option_bind].
      case_decide; [f_equal|]; by apply (IH []).
    + destruct (parse_process_char r' c) as [r1|].
      * cbn [mbind option_bind]. rewrite (IH _ r r1 Hc).
        by destruct cur.
      * by apply readlines_fail.
Qed.

Lemma csv_reader_stream (data : bytes) :
  csv_reader data = read_stream parse_reset false data.
Proof. by apply (readlines_stream data [] parse_reset parse_reset). Qed.

(** ** Reading what the writer wrote *)

Lemma c_string_id (f : bytes) : 0 ∉ f → c_string f = f.
Proof.
  induction f as [|c f IH]; [done|]. intros Hf. cbn [c_string].
  destruct (N.eqb_spec c 0) as [->|_]; [destruct Hf; by left|].
  f_equal. apply IH. intros ?. apply Hf. by right.
Qed.

Lemma read_stream_char (r r1 : ReaderObj) (p : bool) (c : N) (data : bytes) :
  c ≠ 0 → c ≠ 10 → parse_process_char r c = Some r1 →
  read_stream r p (c :: data) = read_stream r1 true data.
Proof.
  intros H0 H10 Hr. cbn [read_stream].
  rewrite (proj2 (N.eqb_neq _ _) H0), (proj2 (N.eqb_neq _ _) H10), Hr. done.
Qed.

Lemma read_stream_lf (r r1 : ReaderObj) (p : bool) (data : bytes) :
  parse_process_char r 10 = Some r1 →
  read_stream r p (10 :: data) =
  match state r1 with
  | IN_QUOTED_FIELD => read_stream r1 false data
  | EAT_CRNL =>
      (fields r1 ::.) <$> read_stream parse_reset false data
  | _ => read_stream r p (10 :: data)
  end.
Proof.
  intros Hr. destruct r1 as [[] F buf]; cbn [state]; try done;
    cbn [read_stream N.eqb Pos.eqb]; rewrite Hr; done.
Qed.

Lemma read_quoted_content (f : bytes) (F : list bytes) (buf : bytes)
    (p : bool) (rest : bytes) :
  0 ∉ f →
  ∃ p', read_stream (Reader IN_QUOTED_FIELD F buf) p (csv_double f ++ rest)
        = read_stream (Reader IN_QUOTED_FIELD F (buf ++ f)) p' rest.
Proof.
  revert buf p. induction f as [|c f IH]; intros buf p Hf.
  - exists p. by rewrite app_nil_r.
  - assert (c ≠ 0) as Hc by (intros ->; apply Hf; by left).
    assert (0 ∉ f) as Hf' by (intros ?; apply Hf; by right).
    unfold csv_double. cbn [flat_map]. fold (csv_double f).
    destruct (N.eqb_spec c 34) as [->|H34].
    + cbn [app].
      rewrite (read_stream_char _ (Reader QUOTE_IN_QUOTED_FIELD F buf))
        by done.
      rewrite (read_stream_char _ (Reader IN_QUOTED_FIELD F (buf ++ [34])))
        by done.
      destruct (IH (buf ++ [34]) true Hf') as [p' ->].
      exists p'. by rewrite <- app_assoc.
    + cbn [app]. destruct (N.eqb_spec c 10) as [->|H10].
      * rewrite (read_stream_lf _ (Reader IN_QUOTED_FIELD F (buf ++ [10])))
          by done.
        cbn [state]. destruct (IH (buf ++ [10]) false Hf') as [p' ->].
        exists p'. by rewrite <- app_assoc.
      * rewrite (read_stream_char _ (Reader IN_QUOTED_FIELD F (buf ++ [c])));
          [|done|done|].
        -- destruct (IH (buf ++ [c]) true Hf') as [p' ->].
           exists p'. by rewrite <- app_assoc.
        -- unfold parse_process_char. cbn [state].
           by rewrite (proj2 (N.eqb_neq _ _) Hc), (proj2 (N.eqb_neq _ _) H34).
Qed.

(** a character that the writer leaves as it is *)
Lemma ordinary_char (c : N) :
  c ≠ 0 → csv_special c = false →
  c ≠ 0 ∧ c ≠ 10 ∧ (c =? 0) = false ∧ (c =? 10) = false
  ∧ (c =? 13) = false ∧ (c =? 34) = false ∧ (c =? 44) = false.
Proof.
  unfold csv_special. intros H0 Hs.
  apply orb_false_elim in Hs as [Hs H10].
  apply orb_false_elim in Hs as [Hs H13].
  apply orb_false_elim in Hs as [H44 H34].
  repeat split; try done;
    [by apply N.eqb_neq in H10|by apply N.eqb_neq].
Qed.

Lemma read_plain_content (f : bytes) (F : list bytes) (buf : bytes)
    (p : bool) (rest : bytes) :
  0 ∉ f → existsb csv_special f = false →
  ∃ p', read_stream (Reader IN_FIELD F buf) p (f ++ rest)
        = read_stream (Reader IN_FIELD F (buf ++ f)) p' rest.
Proof.
  revert buf p. induction f as [|c f IH]; intros buf p Hf Hs.
  - exists p. by rewrite app_nil_r.
  - assert (c ≠ 0) as Hc by (intros ->; apply Hf; by left).
    assert (0 ∉ f) as Hf' by (intros ?; apply Hf; by right).
    cbn [existsb] in Hs. apply orb_false_elim in Hs as [Hsc Hs].
    destruct (ordinary_char c Hc Hsc) as (_ & H10 & E0 & E10 & E13 & E34 & E44).
    cbn [app].
    rewrite (read_stream_char _ (Reader IN_FIELD F (buf ++ [c])));
      [|done|done|].
    + destruct (IH (buf ++ [c]) true Hf' Hs) as [p' ->].
      exists p'. by rewrite <- app_assoc.
    + unfold parse_process_char, end_of_line. cbn [state].
      by rewrite E0, E10, E13, E44.
Qed.

Lemma read_field (qe : bool) (f : bytes) (F : list bytes) (s : ParserState)
    (p : bool) (rest : bytes) :
  0 ∉ f → field_start s F →
  ∃ r p', field_read F f r ∧
          (state r = START_RECORD → s = START_RECORD ∧ qe = false) ∧
          read_stream (Reader s F []) p (csv_field qe f ++ rest)
          = read_stream r p' rest.
Proof.
  intros Hf Hs. unfold csv_field. rewrite (c_string_id f Hf).
  destruct (existsb csv_special f || qe && bool_decide (f = [])) eqn:Hq.
  - (* quoted *)
    cbn [app].
    rewrite (read_stream_char _ (Reader IN_QUOTED_FIELD F []));
      [|done|done|by destruct Hs as [->|[-> ->]]].
    destruct (read_quoted_content f F [] true ([34] ++ rest) Hf) as [p' Hp'].
    rewrite <- app_assoc, Hp'. cbn [app].
    rewrite (read_stream_char _ (Reader QUOTE_IN_QUOTED_FIELD F f)) by done.
    eexists _, _. split; [apply read_quoted|]. by split.
  - apply orb_false_elim in Hq as [Hsp Hqe].
    destruct f as [|c f].
    + exists (Reader s F []), p. split; [by apply read_nothing|].
      split; [|done]. intros Hst. split; [done|].
      by rewrite andb_true_r in Hqe.
    + assert (c ≠ 0) as Hc by (intros ->; apply Hf; by left).
      assert (0 ∉ f) as Hf' by (intros ?; apply Hf; by right).
      cbn [existsb] in Hsp. apply orb_false_elim in Hsp as [Hsc Hsp].
      destruct (ordinary_char c Hc Hsc)
        as (_ & H10 & E0 & E10 & E13 & E34 & E44).
      cbn [app].
      rewrite (read_stream_char _ (Reader IN_FIELD F [c])); [|done|done|].
      * destruct (read_plain_content f F [c] true rest Hf' Hsp) as [p' ->].
        eexists _, _. split; [by apply read_plain|]. by split.
      * destruct Hs as [->|[-> ->]];
          unfold parse_process_char, expect_field, end_of_line;
          cbn [state]; by rewrite ?E0, ?E10, ?E13, ?E34, ?E44.
Qed.

Lemma read_delimiter (F : list bytes) (f : bytes) (r : ReaderObj) (p : bool)
    (rest : bytes) :
  field_read F f r →
  read_stream r p (44 :: rest)
  = read_stream (Reader START_FIELD (F ++ [f]) []) true rest.
Proof.
  intros Hr. apply read_stream_char; [done|done|].
  destruct Hr as [s [->|[-> ->]] ->| |]; done.
Qed.

Lemma read_line_end (F : list bytes) (f : bytes) (r : ReaderObj) (p : bool)
    (rest : bytes) :
  field_read F f r → state r ≠ START_RECORD →
  read_stream r p (13 :: 10 :: rest)
  = ((F ++ [f]) ::.) <$> read_stream parse_reset false rest.
Proof.
  intros Hr Hs.
  rewrite (read_stream_char _ (Reader EAT_CRNL (F ++ [f]) []));
    [|done|done|].
  - by rewrite (read_stream_lf _ (Reader EAT_CRNL (F ++ [f]) [])).
  - destruct Hr as [s [->|[-> ->]] ->| |]; done.
Qed.

Lemma csv_join_cons (f : bytes) (fs : list bytes) :
  fs ≠ [] → csv_join (f :: fs) = f ++ 44 :: csv_join fs.
Proof. by destruct fs. Qed.

Lemma read_fields (qe : bool) (fs : list bytes) (F : list bytes)
    (s : ParserState) (p : bool) (rest : bytes) :
  Forall (λ f, 0 ∉ f) fs → fs ≠ [] → field_start s F →
  (s = START_RECORD → length fs = 1%nat → qe = true) →
  read_stream (Reader s F []) p
    (csv_join (map (csv_field qe) fs) ++ 13 :: 10 :: rest)
  = ((F ++ fs) ::.) <$> read_stream parse_reset false rest.
Proof.
  intros Hfs. revert F s p.
  induction Hfs as [|f fs Hf Hfs IH]; intros F s p Hne Hs Hqe; [done|].
  destruct (decide (fs = [])) as [->|Hfs'].
  - destruct (read_field qe f F s p (13 :: 10 :: rest) Hf Hs)
      as (r & p' & Hr & Hrq & Hread).
    cbn [map csv_join]. rewrite Hread.
    apply (read_line_end F f r p' rest Hr).
    intros Hstate. destruct (Hrq Hstate) as [-> Hfalse].
    rewrite Hqe in Hfalse; done.
  - destruct (read_field qe f F s p
                (44 :: csv_join (map (csv_field qe) fs) ++ 13 :: 10 :: rest)
                Hf Hs) as (r & p' & Hr & _ & Hread).
    cbn [map]. rewrite csv_join_cons by by destruct fs.
    rewrite <- app_assoc. cbn [app].
    rewrite Hread, (read_delimiter F f r p' _ Hr).
    rewrite (IH (F ++ [f]) START_FIELD true); [|done|by left|done].
    by rewrite <- app_assoc.
Qed.

Lemma read_record (row : list bytes) (p : bool) (rest : bytes) :
  Forall (λ f, 0 ∉ f) row →
  read_stream parse_reset p (csv_record row ++ rest)
  = (row ::.) <$> read_stream parse_reset false rest.
Proof.
  intros Hrow. unfold csv_record. rewrite <- app_assoc. cbn [app].
  destruct row as [|f row].
  - cbn [map csv_join app].
    rewrite (read_stream_char _ (Reader EAT_CRNL [] [])) by done.
    by rewrite (read_stream_lf _ (Reader EAT_CRNL [] [])).
  - apply (read_fields _ (f :: row) [] START_RECORD); [done|done|by right|].
    intros _ Hlen. by apply bool_decide_eq_true.
Qed.

(** Reading back what [writerow] wrote for a sequence of rows gives the
    rows, when no field has a NUL octet. *)
Lemma csv_reader_writer (rows : list (list bytes)) :
  Forall (Forall (λ f, 0 ∉ f)) rows →
  csv_reader (concat (map csv_record rows)) = Some rows.
Proof.
  rewrite csv_reader_stream.
  induction 1 as [|row rows Hrow _ IH]; [done|].
  cbn [map concat]. by rewrite read_record, IH.
Qed.

(** ** UTF-8 *)

Lemma utf8_decode_encode_char (c : N) (rest : bytes) :
  c < 1114112 →
  utf8_decode_char (utf8_encode_char c ++ rest) = Some (c, rest).
Proof.
  intros Hc. unfold utf8_encode_char.
  pose proof (N.div_mod' c 64) as H64.
  pose proof (N.mod_lt c 64 ltac:(done)) as M64.
  pose proof (N.div_mod' (c / 64) 64) as H4096.
  pose proof (N.mod_lt (c / 64) 64 ltac:(done)) as M4096.
  pose proof (N.div_mod' (c / 4096) 64) as H262144.
  pose proof (N.mod_lt (c / 4096) 64 ltac:(done)) as M262144.
  assert (c / 64 / 64 = c / 4096) as D1 by by rewrite N.Div0.div_div.
  assert (c / 4096 / 64 = c / 262144) as D2 by by rewrite N.Div0.div_div.
  rewrite D1 in H4096. rewrite D2 in H262144. clear D1 D2.
  set (q1 := c / 64) in *. set (m1 := c mod 64) in *.
  set (q2 := c / 4096) in *. set (m2 := q1 mod 64) in *.
  set (q3 := c / 262144) in *. set (m3 := q2 mod 64) in *.
  clearbody q1 m1 q2 m2 q3 m3.
  destruct (N.ltb_spec c 128) as [H1|H1].
  { cbn [app utf8_decode_char]. by rewrite (proj2 (N.ltb_lt _ _) H1). }
  destruct (N.ltb_spec c 2048) as [H2|H2].
  { cbn [app utf8_decode_char]. unfold continuation.
    rewrite (proj2 (N.ltb_ge (192 + q1) 128)) by lia.
    rewrite (proj2 (N.ltb_ge (192 + q1) 192)) by lia.
    rewrite (proj2 (N.ltb_lt (192 + q1) 224)) by lia.
    rewrite (proj2 (N.leb_le 128 (128 + m1))) by lia.
    rewrite (proj2 (N.ltb_lt (128 + m1) 192)) by lia.
    replace ((192 + q1 - 192) * 64 + (128 + m1 - 128)) with c by lia.
    by rewrite (proj2 (N.leb_le 128 c)) by lia. }
  destruct (N.ltb_spec c 65536) as [H3|H3].
  { cbn [app utf8_decode_char]. unfold continuation.
    rewrite (proj2 (N.ltb_ge (224 + q2) 128)) by lia.
    rewrite (proj2 (N.ltb_ge (224 + q2) 192)) by lia.
    rewrite (proj2 (N.ltb_ge (224 + q2) 224)) by lia.
    rewrite (proj2 (N.ltb_lt (224 + q2) 240)) by lia.
    rewrite (proj2 (N.leb_le 128 (128 + m2))) by lia.
    rewrite (proj2 (N.ltb_lt (128 + m2) 192)) by lia.
    rewrite (proj2 (N.leb_le 128 (128 + m1))) by lia.
    rewrite (proj2 (N.ltb_lt (128 + m1) 192)) by lia.
    replace ((224 + q2 - 224) * 4096 + (128 + m2 - 128) * 64
             + (128 + m1 - 128)) with c by lia.
    by rewrite (proj2 (N.leb_le 2048 c)) by lia. }
  cbn [app utf8_decode_char]. unfold continuation.
  rewrite (proj2 (N.ltb_ge (240 + q3) 128)) by lia.
  rewrite (proj2 (N.ltb_ge (240 + q3) 192)) by lia.
  rewrite (proj2 (N.ltb_ge (240 + q3) 224)) by lia.
  rewrite (proj2 (N.ltb_ge (240 + q3) 240)) by lia.
  rewrite (proj2 (N.ltb_lt (240 + q3) 248)) by lia.
  rewrite (proj2 (N.leb_le 128 (128 + m3))) by lia.
  rewrite (proj2 (N.ltb_lt (128 + m3) 192)) by lia.
  rewrite (proj2 (N.leb_le 128 (128 + m2))) by lia.
  rewrite (proj2 (N.ltb_lt (128 + m2) 192)) by lia.
  rewrite (proj2 (N.leb_le 128 (128 + m1))) by lia.
  rewrite (proj2 (N.ltb_lt (128 + m1) 192)) by lia.
  replace ((240 + q3 - 240) * 262144 + (128 + m3 - 128) * 4096
           + (128 + m2 - 128) * 64 + (128 + m1 - 128)) with c by lia.
  rewrite (proj2 (N.leb_le 65536 c)) by lia.
  by rewrite (proj2 (N.ltb_lt c 1114112)) by lia.
Qed.

Lemma utf8_encode_char_cons (c : N) :
  ∃ b bs, utf8_encode_char c = b :: bs.
Proof.
  unfold utf8_encode_char.
  destruct (c <? 128); [eauto|]. destruct (c <? 2048); [eauto|].
  destruct (c <? 65536); eauto.
Qed.

Lemma utf8_encode_char_nonzero (c : N) : 0 < c → 0 ∉ utf8_encode_char c.
Proof.
  intros Hc. unfold utf8_encode_char.
  destruct (c <? 128);
    [|destruct (c <? 2048); [|destruct (c <? 65536)]];
    rewrite ?elem_of_cons, elem_of_nil;
    repeat match goal with
           | |- context [?a / ?b] => generalize (a / b); intro
           | |- context [?a mod ?b] => generalize (a mod b); intro
           end; lia.
Qed.

Lemma chars_nonzero (s : ustring) :
  Forall (λ c, 0 < c) s → 0 ∉ flat_map utf8_encode_char s.
Proof.
  induction 1 as [|c s Hc _ IH]; [by intros ?%elem_of_nil|].
  cbn [flat_map]. rewrite elem_of_app. intros [H|H].
  - by apply (utf8_encode_char_nonzero c).
  - by apply IH.
Qed.

Lemma utf8_decode_aux_chars (s : ustring) (fuel : nat) :
  Forall (λ c, c < 1114112) s → (length s ≤ fuel)%nat →
  utf8_decode_aux fuel (flat_map utf8_encode_char s) = Some s.
Proof.
  intros Hs. revert fuel.
  induction Hs as [|c s Hc _ IH]; intros fuel Hfuel.
  - by destruct fuel.
  - cbn [flat_map].
    destruct fuel as [|fuel]; [cbn in Hfuel; lia|].
    destruct (utf8_encode_char_cons c) as (b & bs & Hb).
    pose proof (utf8_decode_encode_char c (flat_map utf8_encode_char s) Hc)
      as Hd.
    rewrite Hb in *. cbn [app utf8_decode_aux] in *. rewrite Hd.
    cbn [mbind option_bind]. rewrite IH by (cbn in Hfuel; lia). done.
Qed.

Lemma chars_length (s : ustring) :
  (length s ≤ length (flat_map utf8_encode_char s))%nat.
Proof.
  induction s as [|c s IH]; [done|].
  cbn [flat_map].
  destruct (utf8_encode_char_cons c) as (b & bs & ->).
  cbn [length app]. rewrite length_app. lia.
Qed.

(** Scalar values are written one by one. *)
Lemma encode_scalar_values (s : ustring) :
  scalar_values s → encode s = flat_map utf8_encode_char s.
Proof.
  intros Hs. apply encode_chars. eapply Forall_impl; [exact Hs|].
  intros c [_ Hc]. by apply not_surrogate.
Qed.

Lemma decode_encode_scalar_values (s : ustring) :
  scalar_values s → decode (encode s) = Some s.
Proof.
  intros Hs. rewrite (encode_scalar_values s Hs).
  apply utf8_decode_aux_chars; [|apply chars_length].
  eapply Forall_impl; [exact Hs|]. by intros c [Hc _].
Qed.

Lemma text_scalar_values (s : ustring) : text s → scalar_values s.
Proof.
  intros Hs. eapply Forall_impl; [exact Hs|]. intros c [[_ Hc] Hn]. done.
Qed.

Lemma encode_nonzero (s : ustring) : text s → 0 ∉ encode s.
Proof.
  intros Hs. rewrite (encode_scalar_values s (text_scalar_values s Hs)).
  apply chars_nonzero. eapply Forall_impl; [exact Hs|]. by intros c [[Hc _] _].
Qed.

Lemma decode_encode_text (s : ustring) : text s → decode (encode s) = Some s.
Proof. intros Hs. by apply decode_encode_scalar_values, text_scalar_values. Qed.

(** ** The CSV report read back *)

Lemma for_each_rows {A} (l : list A) (body : A → M unit)
    (row : A → list bytes) (w : world) :
  Forall (λ x, ∀ w, body x w
                    = (Ok (), World (output w ++ [csv_record (row x)])
                                (closed w) (log w) (requests w))) l →
  (for_each l body w).1 = Ok () ∧
  output (for_each l body w).2 = output w ++ map (λ x, csv_record (row x)) l.
Proof.
  intros Hl. revert w. induction Hl as [|x l Hx _ IH]; intros w.
  - cbn. by rewrite app_nil_r.
  - rewrite for_each_cons, Hx. destruct (IH (World (output w ++ [csv_record (row x)])
                                         (closed w) (log w) (requests w)))
      as [-> ->].
    cbn [output map]. by rewrite <- app_assoc.
Qed.

Lemma decode_rows_encode (rows : list (list ustring)) :
  Forall (Forall text) rows →
  decode_rows (map (map encode) rows) = Some rows.
Proof.
  intros Hrows. unfold decode_rows. apply mapM_Some.
  apply Forall2_fmap_l, Forall_Forall2_diag.
  eapply Forall_impl; [exact Hrows|]. intros row Hrow. cbn.
  apply mapM_Some, Forall2_fmap_l, Forall_Forall2_diag.
  eapply Forall_impl; [exact Hrow|]. intros s Hs. by apply decode_encode_text.
Qed.

Lemma read_back (rows : list (list ustring)) :
  Forall (Forall text) rows →
  ∃ read,
    csv_reader (concat (map (λ row, csv_record (map encode row)) rows))
    = Some read ∧
    decode_rows read = Some rows.
Proof.
  intros Hrows. exists (map (map encode) rows).
  split; [|by apply decode_rows_encode].
  rewrite <- (csv_reader_writer (map (map encode) rows)).
  - by rewrite map_map.
  - apply Forall_fmap. eapply Forall_impl; [exact Hrows|].
    intros row Hrow. apply Forall_fmap. eapply Forall_impl; [exact Hrow|].
    intros s Hs. by apply encode_nonzero.
Qed.

Lemma ascii_text_text (s : ustring) : ascii_text s → text s.
Proof.
  intros Hs. eapply Forall_impl; [exact Hs|]. intros c. cbn. lia.
Qed.

Lemma ascii_text_encode (s : ustring) : ascii_text s → encode s = s.
Proof.
  intros Hs. apply encode_ascii.
  eapply Forall_impl; [exact Hs|]. intros c. cbn. lia.
Qed.

Lemma ascii_text_csv_str (i : option ustring) :
  from_option ascii_text True i → csv_str i = Ok (encode (default [] i)).
Proof.
  destruct i as [s|]; [|done]. intros Hs.
  change (encode (default [] (Some s))) with (encode s).
  rewrite (ascii_text_encode s Hs). apply csv_str_ascii.
  eapply Forall_impl; [exact Hs|]. intros c. cbn. lia.
Qed.

(** C9, as the code has it: for tuples whose fields are text of the feed
    (characters of XML: no U+0000, no surrogate) and whose identifiers are
    ASCII, the output of the CSV formatters, read back with the csv reader
    and decoded, is the sequence of the tuples, field for field, the fourth
    field of the lookup format being the identifier, or the empty text
    when there is none. *)
Theorem csv_round_trip
    (tuples : list (ustring * ustring * ustring))
    (looked : list (ustring * ustring * ustring * option ustring)) :
  Forall (λ '(s, t, c), text s ∧ text t ∧ text c) tuples →
  Forall (λ '(s, t, c, i),
            text s ∧ text t ∧ text c ∧ from_option ascii_text True i)
         looked →
  let run :=
    for_each tuples (λ '(s, t, c), CSVFormatter_format s t c) world0 in
  let lookup_run :=
    for_each looked
      (λ '(s, t, c, i),
         CSVLookupFormatter_formatWithSuggestedPubMedID s t c i) world0 in
  (run.1 = Ok () ∧
   ∃ rows, csv_reader (concat (output run.2)) = Some rows ∧
           decode_rows rows = Some (map (λ '(s, t, c), [s; t; c]) tuples)) ∧
  (lookup_run.1 = Ok () ∧
   ∃ rows, csv_reader (concat (output lookup_run.2)) = Some rows ∧
           decode_rows rows
           = Some (map (λ '(s, t, c, i), [s; t; c; default [] i]) looked)).
Proof.
  intros Htuples Hlooked. cbv zeta. split.
  - destruct (for_each_rows tuples
                (λ '(s, t, c), CSVFormatter_format s t c)
                (λ '(s, t, c), map encode [s; t; c]) world0) as [Hr Ho].
    { apply Forall_forall. by intros [[s t] c] _ w. }
    split; [exact Hr|]. rewrite Ho. cbn [output world0 app].
    destruct (read_back (map (λ '(s, t, c), [s; t; c]) tuples))
      as (read & Hread & Hdec).
    { apply Forall_fmap. eapply Forall_impl; [exact Htuples|].
      intros [[s t] c] (Hs & Ht & Hc). cbn. by repeat constructor. }
    exists read. split; [|exact Hdec]. rewrite <- Hread. do 2 f_equal.
    rewrite map_map. apply map_ext. by intros [[s t] c].
  - destruct (for_each_rows looked
                (λ '(s, t, c, i),
                   CSVLookupFormatter_formatWithSuggestedPubMedID s t c i)
                (λ '(s, t, c, i), map encode [s; t; c; default [] i]) world0)
      as [Hr Ho].
    { eapply Forall_impl; [exact Hlooked|].
      intros [[[s t] c] i] (_ & _ & _ & Hi) w.
      unfold CSVLookupFormatter_formatWithSuggestedPubMedID, mbind, M_bind,
        lift.
      by rewrite (ascii_text_csv_str i Hi). }
    split; [exact Hr|]. rewrite Ho. cbn [output world0 app].
    destruct (read_back (map (λ '(s, t, c, i), [s; t; c; default [] i])
                           looked)) as (read & Hread & Hdec).
    { apply Forall_fmap. eapply Forall_impl; [exact Hlooked|].
      intros [[[s t] c] i] (Hs & Ht & Hc & Hi). cbn.
      repeat constructor; try done.
      destruct i as [id|]; [by apply ascii_text_text|constructor]. }
    exists read. split; [|exact Hdec]. rewrite <- Hread. do 2 f_equal.
    rewrite map_map. apply map_ext. by intros [[[s t] c] i].
Qed.

Lemma csv_round_trip_witness :
  Forall (λ '(s, t, c), text s ∧ text t ∧ text c)
    [(u "B", [34] ++ u "Foo, bar" ++ [34], u "X; Y");
     (u "C", NO_TITLE, [10; 233; 8364; 128512])] ∧
  Forall (λ '(s, t, c, i),
            text s ∧ text t ∧ text c ∧ from_option ascii_text True i)
    [(u "B", [34] ++ u "Foo" ++ [34], u "X; Y", Some (u "42"));
     (u "C", NO_TITLE, NO_AUTHORS, None)] ∧
  (∃ rows,
     csv_reader
       (concat (output
          (for_each [(u "B", [34] ++ u "Foo, bar" ++ [34], u "X; Y");
                     (u "C", NO_TITLE, [10; 233; 8364; 128512])]
             (λ '(s, t, c), CSVFormatter_format s t c) world0).2))
     = Some rows ∧
     decode_rows rows
     = Some [[u "B"; [34] ++ u "Foo, bar" ++ [34]; u "X; Y"];
             [u "C"; NO_TITLE; [10; 233; 8364; 128512]]]) ∧
  (∃ rows,
     csv_reader
       (concat (output
          (for_each [(u "B", [34] ++ u "Foo" ++ [34], u "X; Y",
                      Some (u "42"));
                     (u "C", NO_TITLE, NO_AUTHORS, None)]
             (λ '(s, t, c, i),
                CSVLookupFormatter_formatWithSuggestedPubMedID s t c i)
             world0).2))
     = Some rows ∧
     decode_rows rows
     = Some [[u "B"; [34] ++ u "Foo" ++ [34]; u "X; Y"; u "42"];
             [u "C"; NO_TITLE; NO_AUTHORS; []]]).
Proof.
  assert (H1 : Forall (λ '(s, t, c), text s ∧ text t ∧ text c)
                 [(u "B", [34] ++ u "Foo, bar" ++ [34], u "X; Y");
                  (u "C", NO_TITLE, [10; 233; 8364; 128512])]).
  { repeat first [apply Forall_cons | apply Forall_nil | split];
      first [by vm_compute | left; by vm_compute | right; by vm_compute]. }
  assert (H2 : Forall (λ '(s, t, c, i),
                         text s ∧ text t ∧ text c
                         ∧ from_option ascii_text True i)
                 [(u "B", [34] ++ u "Foo" ++ [34], u "X; Y", Some (u "42"));
                  (u "C", NO_TITLE, NO_AUTHORS, None)]).
  { repeat first [apply Forall_cons | apply Forall_nil | split];
      first [by vm_compute | left; by vm_compute | right; by vm_compute]. }
  split; [exact H1|]. split; [exact H2|].
  destruct (csv_round_trip _ _ H1 H2) as [[_ Ha] [_ Hb]].
  split; [exact Ha|exact Hb].
Defined.

(** C9 as stated fails, on three kinds of tuples: an identifier that is not
    ASCII makes the writer raise, and no row is written; a field is
    written up to its first U+0000; a high surrogate that a low one
    follows is read back as the one code point of the pair. *)
Lemma csv_round_trip_counterexample :
  (let run :=
     for_each [(u "B", u "T", u "X", Some [233])]
       (λ '(s, t, c, i),
          CSVLookupFormatter_formatWithSuggestedPubMedID s t c i) world0 in
   run.1 = Raise UnicodeEncodeError ∧
   csv_reader (concat (output run.2)) = Some []) ∧
  (let run :=
     for_each [(u "B", [65; 0; 66], u "X")]
       (λ '(s, t, c), CSVFormatter_format s t c) world0 in
   run.1 = Ok () ∧
   (csv_reader (concat (output run.2)) ≫= decode_rows)
   = Some [[u "B"; [65]; u "X"]]) ∧
  (let run :=
     for_each [(u "B", [55357; 56832], u "X")]
       (λ '(s, t, c), CSVFormatter_format s t c) world0 in
   run.1 = Ok () ∧
   (csv_reader (concat (output run.2)) ≫= decode_rows)
   = Some [[u "B"; [128512]; u "X"]]).
Proof. repeat split; by vm_compute. Qed.

(** * Further properties of the pipeline *)

(** ** Which subjects are reported *)

Lemma objects_of_nil (g : list triple) (s p : uri) :
  objects_of g s p = [] ↔ ∀ o, (s, p, o) ∉ g.
Proof.
  unfold objects_of. induction g as [|[[s' p'] o'] g IH].
  - split; [intros _ o; apply not_elem_of_nil|done].
  - cbn [omap list_omap]. case_decide as Hsp.
    + destruct Hsp as [-> ->]. split; [done|].
      intros H. destruct (H o'). by left.
    + rewrite IH. split.
      * intros H o [Heq|Hin]%elem_of_cons; [|by apply (H o)].
        injection Heq as -> -> ->. by destruct Hsp.
      * intros H o Hin. apply (H o). by right.
Qed.

Lemma elem_of_subjects_of (g : list triple) (s : uri) :
  s ∈ subjects_of g ↔ ∃ p o, (s, p, o) ∈ g.
Proof.
  unfold subjects_of. rewrite list_elem_of_In, in_map_iff. split.
  - intros ([[s' p] o] & <- & Hin). exists p, o. by apply list_elem_of_In.
  - intros (p & o & Hin). exists (s, p, o). split; [done|].
    by apply list_elem_of_In.
Qed.

Lemma gaps_elem (E : env) (g : list triple) (s : uri) (preds : predicates_t) :
  (s, preds) ∈ gaps E g ↔
  foldl parsePubs_step ∅ g !! s = Some preds ∧
  preds !! _pubMedIDPredURI = None.
Proof.
  rewrite gaps_Permutation, parsePubs_loop_foldl. apply elem_of_missing.
Qed.

Lemma gaps_subjects (E : env) (g : list triple) (s : uri) :
  s ∈ (gaps E g).*1 ↔
  s ∈ subjects_of g ∧ objects_of g s _pubMedIDPredURI = [].
Proof.
  rewrite list_elem_of_fmap. split.
  - intros ([s' preds] & -> & [Hs Hp]%gaps_elem). cbn [fst].
    split; [by apply index_subjects; eexists|].
    pose proof (index_objects_at g s' _pubMedIDPredURI) as H.
    unfold objects_at in H. rewrite Hs, Hp in H.
    by destruct (objects_of g s' _pubMedIDPredURI).
  - intros [[preds Hs]%index_subjects Ho].
    exists (s, preds). split; [done|]. apply gaps_elem. split; [done|].
    pose proof (index_objects_at g s _pubMedIDPredURI) as H.
    unfold objects_at in H. by rewrite Hs, Ho in H.
Qed.

(** X1: the subjects of the sorted list that [checkPublications] reports
    are the subjects of the triples of the feed that have no triple with the
    PubMed identifier predicate. *)
Theorem reported_subjects (E : env) (url : uri) (g : list triple) (w : world) :
  rdf_parse E url = Ok g →
  ∃ statements w1 missing w2,
    parsePubs E url w = (Ok statements, w1) ∧
    findMissingPubMedIDs E statements w1 = (Ok missing, w2) ∧
    ∀ s, s ∈ (sort (λ a b, cmp a.1 b.1) missing).*1 ↔
         s ∈ subjects_of g ∧ ∀ o, (s, _pubMedIDPredURI, o) ∉ g.
Proof.
  intros Hg. rewrite parsePubs_run, Hg.
  set (w1 := World _ _ _ _).
  pose proof (findMissingPubMedIDs_filter E (foldl parsePubs_step ∅ g) w1)
    as Hm.
  destruct (findMissingPubMedIDs E (foldl parsePubs_step ∅ g) w1)
    as [r w2] eqn:Hrun. cbn [fst] in Hm. subst r.
  eexists _, w1, _, w2. split; [done|]. split; [done|].
  intros s. rewrite <- objects_of_nil, <- gaps_subjects.
  unfold gaps. by rewrite parsePubs_loop_foldl.
Qed.

Lemma reported_subjects_witness :
  rdf_parse (example_env feed_ABC (Ok [])) _defaultURL = Ok feed_ABC ∧
  ∃ statements w1 missing w2,
    parsePubs (example_env feed_ABC (Ok [])) _defaultURL world0
    = (Ok statements, w1) ∧
    findMissingPubMedIDs (example_env feed_ABC (Ok [])) statements w1
    = (Ok missing, w2) ∧
    ∀ s, s ∈ (sort (λ a b, cmp a.1 b.1) missing).*1 ↔
         s ∈ subjects_of feed_ABC ∧
         ∀ o, (s, _pubMedIDPredURI, o) ∉ feed_ABC.
Proof.
  split; [reflexivity|].
  apply (reported_subjects (example_env feed_ABC (Ok [])) _defaultURL
           feed_ABC world0).
  reflexivity.
Defined.

(** Two lists in strictly ascending order with the same elements are the
    same list. *)
Lemma ascending_NoDup (l : list uri) : StronglySorted before l → NoDup l.
Proof.
  induction 1 as [|x l _ IH Hall]; constructor; [|done].
  intros Hx. rewrite Forall_forall in Hall.
  by apply (irreflexivity before x), Hall.
Qed.

Lemma ascending_ext (l k : list uri) :
  StronglySorted before l → StronglySorted before k →
  (∀ x, x ∈ l ↔ x ∈ k) → l = k.
Proof.
  intros Hl Hk Hiff.
  apply (StronglySorted_unique_strong before); [|done|done|].
  - intros x y _ _ Hxy Hyx.
    destruct (irreflexivity before x). by trans y.
  - apply NoDup_Permutation; [by apply ascending_NoDup..|done].
Qed.

(** X2: which subjects are reported, and in which order, depends on the set
    of the triples only, not on the order in which the graph yields
    them. *)
Theorem reported_subjects_feed_order (E : env) (g1 g2 : list triple) :
  g1 ≡ₚ g2 → (gaps E g1).*1 = (gaps E g2).*1.
Proof.
  intros Hg. apply ascending_ext; [apply gaps_ascending..|].
  intros s. rewrite !gaps_subjects, !objects_of_nil, !elem_of_subjects_of.
  split; intros [(p & o & Hs) Ho]; (split; [exists p, o|intros o']).
  - by rewrite <- Hg.
  - rewrite <- Hg. apply Ho.
  - by rewrite Hg.
  - rewrite Hg. apply Ho.
Qed.

Lemma reported_subjects_feed_order_witness :
  feed_ABC ≡ₚ reverse feed_ABC ∧
  (gaps (example_env feed_ABC (Ok [])) feed_ABC).*1
  = (gaps (example_env feed_ABC (Ok [])) (reverse feed_ABC)).*1.
Proof.
  assert (H : feed_ABC ≡ₚ reverse feed_ABC)
    by (symmetry; apply reverse_Permutation).
  split; [exact H|].
  exact (reported_subjects_feed_order (example_env feed_ABC (Ok []))
           feed_ABC (reverse feed_ABC) H).
Defined.

Lemma ascending_filter (P : uri → Prop) `{∀ x, Decision (P x)}
    (l : list uri) :
  StronglySorted before l → StronglySorted before (filter P l).
Proof.
  induction 1 as [|x l _ IH Hall]; [constructor|].
  rewrite filter_cons. case_decide; [|done].
  constructor; [done|]. apply Forall_forall. intros y [_ Hy]%list_elem_of_filter.
  rewrite Forall_forall in Hall. by apply Hall.
Qed.

(** X3: a triple that gives a subject a PubMed identifier, anywhere in the
    feed, takes that subject out of the report and leaves the other
    reported subjects and their order as they were. *)
Theorem identifier_removes_subject (E : env) (g1 g2 : list triple)
    (s : uri) (o : node) :
  (gaps E (g1 ++ (s, _pubMedIDPredURI, o) :: g2)).*1
  = filter (λ x, x ≠ s) (gaps E (g1 ++ g2)).*1.
Proof.
  apply ascending_ext.
  - apply gaps_ascending.
  - apply ascending_filter, gaps_ascending.
  - intros x.
    rewrite list_elem_of_filter, !gaps_subjects, !objects_of_nil,
      !elem_of_subjects_of.
    setoid_rewrite elem_of_app. setoid_rewrite elem_of_cons.
    split.
    + intros [(p & o' & Hx) Ho]. assert (x ≠ s) as Hne.
      { intros ->. apply (Ho o). right. by left. }
      split; [done|]. split.
      * exists p, o'. destruct Hx as [?|[[= ? ? ?]|?]]; [by left|done|by right].
      * intros o'' Hin. apply (Ho o''). tauto.
    + intros (Hne & (p & o' & Hx) & Ho). split.
      * exists p, o'. tauto.
      * intros o'' [Hin|[Heq|Hin]];
          [by apply (Ho o''); left| |by apply (Ho o''); right].
        by injection Heq as ->.
Qed.

(** ** What is written for a reported subject *)

Lemma gap_fields (E : env) (g : list triple) (s : uri) (preds : predicates_t) :
  (s, preds) ∈ gaps E g →
  title_of preds = Ok (feed_title g s) ∧
  creators_of preds = feed_creators g s.
Proof.
  intros [Hs _]%gaps_elem.
  pose proof (index_objects_at g s _titlePredURI) as Ht.
  pose proof (index_objects_at g s _creatorPredURI) as Hc.
  unfold objects_at in Ht, Hc. rewrite Hs in Ht, Hc.
  rewrite title_of_lookup, creators_of_values, Ht, Hc.
  unfold feed_title, feed_creators.
  split; [by destruct (objects_of g s _titlePredURI)|].
  by destruct (objects_of g s _creatorPredURI).
Qed.

(** X4: for every reported subject, the title that the reporter hands to
    the formatter is the first title object of the subject in the order of
    the feed, between quotation marks, or the sentinel when the subject has
    no title triple; the creators are the creator objects of the subject in
    the order of the feed, with a semicolon and a space before each but the
    first, or the sentinel when it has none. *)
Theorem fields_from_triples (E : env) (g : list triple) :
  Forall (λ gap,
            title_of gap.2
            = Ok (match objects_of g gap.1 _titlePredURI with
                  | [] => NO_TITLE
                  | o :: _ => [34] ++ unicode o ++ [34]
                  end) ∧
            creators_of gap.2
            = match objects_of g gap.1 _creatorPredURI with
              | [] => NO_AUTHORS
              | o :: objs =>
                  unicode o ++ flat_map (λ o', u "; " ++ unicode o') objs
              end)
         (gaps E g).
Proof.
  apply Forall_forall. intros [s preds] Hin.
  exact (gap_fields E g s preds Hin).
Qed.


(** ** The requests of a run *)

Lemma format_gap_requests (E : env) (f : formatter) (subject : uri)
    (preds : predicates_t) (w : world) :
  requests ((title ← lift (title_of preds);
             format E f subject title (creators_of preds)) w).2
  = requests w ++
    match title_of preds with
    | Ok title => if is_lookup f then [params title] else []
    | Raise _ => []
    end.
Proof.
  cbv beta iota zeta delta [mbind M_bind lift].
  destruct (title_of preds) as [title|e]; [|by rewrite app_nil_r].
  destruct f;
    cbv beta iota zeta
      delta [format LookupFormatter_format mbind M_bind lift send
             PlainFormatter_format CSVFormatter_format write
             PlainLookupFormatter_formatWithSuggestedPubMedID
             CSVLookupFormatter_formatWithSuggestedPubMedID is_lookup
             fst snd output closed log requests].
  - by rewrite app_nil_r.
  - by destruct (esearch E (params title)).
  - by rewrite app_nil_r.
  - destruct (esearch E (params title)) as [results|e]; [|done].
    by destruct (csv_str (head results)).
Qed.

Lemma for_each_requests (E : env) (f : formatter)
    (missing : list (uri * predicates_t)) (w : world) :
  requests (for_each missing (λ '(subject, preds),
              title ← lift (title_of preds);
              format E f subject title (creators_of preds)) w).2
  = requests w ++ requests_of E f missing.
Proof.
  revert w. induction missing as [|[subject preds] missing IH]; intros w.
  - cbn. by rewrite app_nil_r.
  - rewrite for_each_cons. cbn [requests_of snd].
    pose proof (format_gap_run E f subject preds w) as H. cbv zeta in H.
    pose proof (format_gap_requests E f subject preds w) as Hq.
    destruct ((title ← lift (title_of preds);
               format E f subject title (creators_of preds)) w)
      as [[[]|e] w1]; cbn [fst snd] in H, Hq;
      destruct (record_of E f (subject, preds)) as [b|e'] eqn:Hrec;
      destruct H as ([H1 H2] & _); try done.
    + rewrite IH, Hq. unfold record_of in Hrec.
      destruct (title_of preds); [|done]. by rewrite <- app_assoc.
    + cbn [snd]. rewrite Hq. destruct (title_of preds); [|done].
      by rewrite app_nil_r.
Qed.

Lemma outputBadPublications_requests (E : env) (f : formatter)
    (missing : list (uri * predicates_t)) (w : world) :
  requests (outputBadPublications E missing f w).2
  = requests w ++ requests_of E f missing.
Proof.
  unfold outputBadPublications, mbind, M_bind, logging.
  set (w1 := World _ _ _ _).
  exact (for_each_requests E f missing w1).
Qed.

Lemma checkPublications_requests (E : env) (url : uri) (f : formatter)
    (w : world) :
  requests (checkPublications E url f w).2
  = requests w ++
    match rdf_parse E url with
    | Ok g => requests_of E f (gaps E g)
    | Raise _ => []
    end.
Proof.
  rewrite checkPublications_eq, parsePubs_run.
  destruct (rdf_parse E url) as [g|e]; [|by rewrite app_nil_r].
  set (w1 := World _ _ _ _).
  pose proof (findMissingPubMedIDs_filter E (foldl parsePubs_step ∅ g) w1)
    as Hm.
  pose proof (findMissingPubMedIDs_world E (foldl parsePubs_step ∅ g) w1)
    as Hw.
  destruct (findMissingPubMedIDs _ _ _) as [r w2]. cbn [fst snd] in Hm, Hw.
  subst r w2. set (w3 := World _ _ _ _).
  unfold gaps. rewrite parsePubs_loop_foldl. cbn [fst].
  by rewrite outputBadPublications_requests.
Qed.







(** ** Before the [try] block *)

(** X7: with more than one positional argument the run leaves with status
    2, and when the destination does not open it leaves with status 1; in
    both cases before anything is read, logged, written or requested. *)
Theorem main_before_try (E : env) (options : options_t)
    (args : list ustring) :
  ((2 < length args)%nat → script E options args = (2%Z, world0)) ∧
  ((length args ≤ 2)%nat →
   ∀ c path,
     opt_output options = Some (c :: path) →
     open_output E (c :: path) = false →
     script E options args = (1%Z, world0)).
Proof.
  split.
  - intros Hlen. unfold script, main. by rewrite decide_True by done.
  - intros Hlen c path Ho Hopen. unfold script, main.
    rewrite decide_False by lia.
    assert (Hurl : (match args with
                    | [_; url] => mret url
                    | _ => mret _defaultURL
                    end : M uri) = mret (url_of args)).
    { by destruct args as [|a [|b [|d l]]]. }
    by rewrite Hurl, Ho, Hopen.
Qed.

Lemma main_before_try_witness :
  (2 < length [u "badpubs"; u "a"; u "b"])%nat ∧
  script (example_env feed_ABC (Ok [])) (Options false None false)
    [u "badpubs"; u "a"; u "b"] = (2%Z, world0).
Proof.
  assert (H : (2 < length [u "badpubs"; u "a"; u "b"])%nat) by (cbn; lia).
  split; [exact H|].
  exact (proj1 (main_before_try (example_env feed_ABC (Ok []))
                  (Options false None false) [u "badpubs"; u "a"; u "b"]) H).
Defined.

(** ** The log *)



(** ** The iteration order of the dictionary *)

Lemma gaps_dict_order (E1 E2 : env) (g : list triple) :
  gaps E1 g = gaps E2 g.
Proof.
  assert (Hkeys : (gaps E1 g).*1 = (gaps E2 g).*1).
  { apply ascending_ext; [apply gaps_ascending..|].
    intros s. by rewrite !gaps_subjects. }
  assert (H1 : ∀ gap, gap ∈ gaps E1 g →
                      foldl parsePubs_step ∅ g !! gap.1 = Some gap.2)
    by (intros gap; apply gaps_in_index).
  assert (H2 : ∀ gap, gap ∈ gaps E2 g →
                      foldl parsePubs_step ∅ g !! gap.1 = Some gap.2)
    by (intros gap; apply gaps_in_index).
  revert Hkeys H1 H2. generalize (gaps E1 g) (gaps E2 g).
  induction l as [|[s1 p1] l IH]; intros [|[s2 p2] k] Hkeys H1 H2;
    try done.
  injection Hkeys as -> Hkeys.
  pose proof (H1 (s2, p1) ltac:(by left)) as Hp1.
  pose proof (H2 (s2, p2) ltac:(by left)) as Hp2.
  cbn [fst snd] in Hp1, Hp2. rewrite Hp1 in Hp2. injection Hp2 as ->.
  f_equal. apply IH; [done| |]; intros gap Hin; [apply H1|apply H2];
    by right.
Qed.

Lemma records_of_ext (E1 E2 : env) (f : formatter)
    (l : list (uri * predicates_t)) :
  (∀ q, esearch E1 q = esearch E2 q) →
  records_of E1 f l = records_of E2 f l ∧
  requests_of E1 f l = requests_of E2 f l.
Proof.
  intros He.
  assert (Hrec : ∀ gap, record_of E1 f gap = record_of E2 f gap).
  { intros [s preds]. unfold record_of.
    destruct (title_of preds) as [title|e]; [|done].
    cbn [mbind result_bind]. destruct f; try done; by rewrite He. }
  induction l as [|gap l [IH1 IH2]]; [done|].
  cbn [records_of requests_of]. by rewrite Hrec, IH1, IH2.
Qed.

(** X9: what a run reports does not depend on the order in which Python
    iterates the dictionary of statements: with collaborators that agree
    on the feed and on the search results, [checkPublications] returns or
    raises the same, writes the same records and sends the same
    requests. *)
Theorem report_independent_of_dict_order (E1 E2 : env) (url : uri)
    (f : formatter) (w : world) :
  (∀ url, rdf_parse E1 url = rdf_parse E2 url) →
  (∀ q, esearch E1 q = esearch E2 q) →
  (checkPublications E1 url f w).1 = (checkPublications E2 url f w).1 ∧
  output (checkPublications E1 url f w).2
  = output (checkPublications E2 url f w).2 ∧
  requests (checkPublications E1 url f w).2
  = requests (checkPublications E2 url f w).2.
Proof.
  intros Hp He.
  pose proof (checkPublications_run E1 url f w) as [_ H1].
  pose proof (checkPublications_run E2 url f w) as [_ H2].
  rewrite !checkPublications_requests.
  rewrite <- Hp in *. destruct (rdf_parse E1 url) as [g|e].
  - destruct H1 as [-> ->], H2 as [-> ->].
    rewrite (gaps_dict_order E1 E2 g).
    destruct (records_of_ext E1 E2 f (gaps E2 g) He) as [-> ->]. done.
  - destruct H1 as [-> ->], H2 as [-> ->]. done.
Qed.

Lemma report_independent_of_dict_order_witness :
  (∀ url, rdf_parse (example_env feed_ABC (Ok [u "42"])) url
          = rdf_parse (env_reversed (example_env feed_ABC (Ok [u "42"])))
              url) ∧
  (∀ q, esearch (example_env feed_ABC (Ok [u "42"])) q
        = esearch (env_reversed (example_env feed_ABC (Ok [u "42"]))) q) ∧
  output (checkPublications (example_env feed_ABC (Ok [u "42"]))
            _defaultURL CSVLookupFormatter world0).2
  = output (checkPublications
              (env_reversed (example_env feed_ABC (Ok [u "42"])))
              _defaultURL CSVLookupFormatter world0).2.
Proof.
  split; [intros url; reflexivity|]. split; [intros q; reflexivity|].
  exact (proj1 (proj2 (report_independent_of_dict_order
                         (example_env feed_ABC (Ok [u "42"]))
                         (env_reversed (example_env feed_ABC (Ok [u "42"])))
                         _defaultURL CSVLookupFormatter world0
                         (λ _, eq_refl) (λ _, eq_refl)))).
Defined.

(** ** The order of [cmp] *)

(** X10: the comparison by which [checkPublications] sorts is a total
    order on text, the lexicographic order of the code points: [cmp] gives
    -1 exactly from a text to one that is lexicographically after it, 0
    exactly for equal texts and 1 otherwise, and it is antisymmetric. *)
Theorem cmp_lexicographic (a b : ustring) :
  (cmp a b = (-1)%Z ↔ lexico a b) ∧
  (cmp a b = 0%Z ↔ a = b) ∧
  (cmp a b = 1%Z ↔ lexico b a) ∧
  cmp b a = (- cmp a b)%Z.
Proof.
  split; [apply before_lexico|]. split; [apply cmp_eq|].
  split; [|apply cmp_flip].
  rewrite <- before_lexico. unfold before. rewrite (cmp_flip a b). lia.
Qed.

(** ** UTF-8 *)

Lemma surrogate_pair_range (c c2 : N) :
  high_surrogate c = true → low_surrogate c2 = true →
  65536 ≤ surrogate_pair c c2 < 1114112.
Proof.
  unfold high_surrogate, low_surrogate, surrogate_pair.
  rewrite !andb_true_iff, !N.leb_le, !N.ltb_lt. lia.
Qed.

(** X11: [Formatter.encode] loses nothing of a text of scalar values of
    Unicode: decoding its octets gives the text back, so different such
    texts have different octets.  The octets of the concatenation of two
    texts are the octets of the one followed by the octets of the other
    when the second does not start with a low surrogate, and ASCII text is
    its own encoding.  A high surrogate that a low one follows is written
    as the code point of the pair, a code point from U+10000 on, is. *)
Theorem encode_round_trip (s t : ustring) :
  (scalar_values s → decode (encode s) = Some s) ∧
  (scalar_values s → scalar_values t → encode s = encode t → s = t) ∧
  ((∀ c t', t = c :: t' → low_surrogate c = false) →
   encode (s ++ t) = encode s ++ encode t) ∧
  (Forall (λ c, c < 128) s → encode s = s) ∧
  (∀ c c2,
     high_surrogate c = true → low_surrogate c2 = true →
     65536 ≤ surrogate_pair c c2 < 1114112 ∧
     encode (c :: c2 :: s) = encode (surrogate_pair c c2 :: s)).
Proof.
  split; [apply decode_encode_scalar_values|].
  split; [|split; [apply encode_app|split; [apply encode_ascii|]]].
  - intros Hs Ht Heq. apply decode_encode_scalar_values in Hs, Ht.
    rewrite Heq in Hs. congruence.
  - intros c c2 Hc Hc2. pose proof (surrogate_pair_range c c2 Hc Hc2) as Hp.
    split; [done|].
    rewrite encode_cons_cons, Hc, Hc2. cbn [andb].
    rewrite (encode_cons (surrogate_pair c c2)); [done|].
    apply not_surrogate. lia.
Qed.

Lemma encode_round_trip_witness :
  scalar_values [34; 233; 8364; 128512; 0] ∧
  decode (encode [34; 233; 8364; 128512; 0])
  = Some [34; 233; 8364; 128512; 0].
Proof.
  assert (H : scalar_values [34; 233; 8364; 128512; 0]).
  { repeat first [apply Forall_cons | apply Forall_nil | split];
      first [by vm_compute | left; by vm_compute | right; by vm_compute]. }
  split; [exact H|].
  exact (proj1 (encode_round_trip [34; 233; 8364; 128512; 0] []) H).
Defined.

(** ** The query string *)

Lemma hex_digit_values (n : N) :
  n < 16 →
  (48 ≤ hex_digit n ≤ 57 ∨ 65 ≤ hex_digit n ≤ 70) ∧
  always_safe (hex_digit n) = true.
Proof.
  intros Hn. unfold hex_digit, always_safe.
  destruct (N.ltb_spec n 10).
  - split; [lia|].
    rewrite (proj2 (N.leb_le 48 (48 + n))), (proj2 (N.leb_le (48 + n) 57))
      by lia.
    by rewrite !orb_true_r.
  - split; [lia|].
    by rewrite (proj2 (N.leb_le 65 (55 + n))), (proj2 (N.leb_le (55 + n) 90))
      by lia.
Qed.

Lemma hex_digit_inj (n m : N) :
  n < 16 → m < 16 → hex_digit n = hex_digit m → n = m.
Proof.
  unfold hex_digit. intros Hn Hm.
  destruct (N.ltb_spec n 10), (N.ltb_spec m 10); lia.
Qed.

Lemma octet_digits (c : N) : c < 256 → c / 16 < 16 ∧ c mod 16 < 16.
Proof.
  intros Hc. split; [|by apply N.mod_lt].
  apply N.Div0.div_lt_upper_bound. lia.
Qed.

(** the three shapes of [quote_plus_char] *)
Lemma quote_plus_char_cases (c : N) :
  c < 256 →
  (always_safe c = true ∧ quote_plus_char c = [c]) ∨
  (c = 32 ∧ quote_plus_char c = [43]) ∨
  (always_safe c = false ∧ c ≠ 32 ∧
   quote_plus_char c = [37; hex_digit (c / 16); hex_digit (c mod 16)]).
Proof.
  intros _. unfold quote_plus_char.
  destruct (always_safe c) eqn:Hs; [by left|]. right.
  destruct (N.eqb_spec c 32) as [->|Hc]; [by left|by right].
Qed.

Lemma quote_plus_chars (s : bytes) :
  octets s →
  Forall (λ c, (always_safe c || (c =? 43) || (c =? 37)) = true)
         (quote_plus s).
Proof.
  induction 1 as [|c s Hc _ IH]; [constructor|].
  unfold quote_plus. cbn [flat_map]. apply Forall_app. split; [|exact IH].
  destruct (octet_digits c Hc) as [H1 H2].
  destruct (quote_plus_char_cases c Hc) as [[Hs ->]|[[-> ->]|(_ & _ & ->)]].
  - constructor; [by rewrite Hs|constructor].
  - constructor; [done|constructor].
  - constructor; [done|].
    constructor; [by rewrite (proj2 (hex_digit_values _ H1))|].
    constructor; [by rewrite (proj2 (hex_digit_values _ H2))|constructor].
Qed.

Lemma quote_plus_inj (s t : bytes) :
  octets s → octets t → quote_plus s = quote_plus t → s = t.
Proof.
  intros Hs. revert t.
  induction Hs as [|c s Hc _ IH]; intros t Ht Heq.
  - destruct Ht as [|d t Hd _]; [done|]. unfold quote_plus in Heq.
    cbn [flat_map] in Heq.
    by destruct (quote_plus_char_cases d Hd)
      as [[_ H]|[[_ H]|(_ & _ & H)]]; rewrite H in Heq.
  - destruct Ht as [|d t Hd Ht]; unfold quote_plus in Heq;
      cbn [flat_map] in Heq.
    { by destruct (quote_plus_char_cases c Hc)
        as [[_ H]|[[_ H]|(_ & _ & H)]]; rewrite H in Heq. }
    fold (quote_plus s) (quote_plus t) in Heq.
    destruct (octet_digits c Hc) as [Hc1 Hc2].
    destruct (octet_digits d Hd) as [Hd1 Hd2].
    destruct (quote_plus_char_cases c Hc)
      as [[Hsc Hqc]|[[Hc32 Hqc]|(Hsc & Hc32 & Hqc)]];
      destruct (quote_plus_char_cases d Hd)
        as [[Hsd Hqd]|[[Hd32 Hqd]|(Hsd & Hd32 & Hqd)]];
      rewrite Hqc, Hqd in Heq; cbn [app] in Heq.
    + injection Heq as -> Heq. f_equal. by apply IH.
    + injection Heq as -> Heq. by vm_compute in Hsc.
    + injection Heq as -> Heq. by vm_compute in Hsc.
    + injection Heq as <- Heq. by vm_compute in Hsd.
    + injection Heq as Heq. subst c d. f_equal. by apply IH.
    + by injection Heq.
    + injection Heq as <- Heq. by vm_compute in Hsd.
    + by injection Heq.
    + injection Heq as Heq1 Heq2 Heq.
      apply hex_digit_inj in Heq1, Heq2; try done.
      assert (c = d) as ->.
      { rewrite (N.div_mod' c 16), (N.div_mod' d 16). congruence. }
      f_equal. by apply IH.
Qed.

Lemma quote_plus_no_separator (s : bytes) :
  octets s → (61 ∉ quote_plus s) ∧ (38 ∉ quote_plus s).
Proof.
  intros Hs. pose proof (quote_plus_chars s Hs) as H.
  rewrite Forall_forall in H.
  split; intros Hin; specialize (H _ Hin); by vm_compute in H.
Qed.

Lemma app_separator_inj (sep : N) (a a' b b' : bytes) :
  sep ∉ a → sep ∉ a' →
  a ++ sep :: b = a' ++ sep :: b' → a = a' ∧ b = b'.
Proof.
  revert a'. induction a as [|x a IH]; intros [|x' a'] Ha Ha' Heq.
  - by injection Heq as ->.
  - injection Heq as <- _. destruct Ha'. by left.
  - injection Heq as -> _. destruct Ha. by left.
  - injection Heq as -> Heq.
    destruct (IH a') as [-> ->]; [| |done|done].
    + intros ?. apply Ha. by right.
    + intros ?. apply Ha'. by right.
Qed.

Lemma pair_string_inj (k v k' v' : bytes) :
  octets k → octets v → octets k' → octets v' →
  quote_plus k ++ [61] ++ quote_plus v
  = quote_plus k' ++ [61] ++ quote_plus v' →
  k = k' ∧ v = v'.
Proof.
  intros Hk Hv Hk' Hv' Heq.
  apply app_separator_inj in Heq as [H1 H2];
    [|by apply quote_plus_no_separator..].
  split; by apply quote_plus_inj.
Qed.

Lemma pair_string_no_ampersand (k v : bytes) :
  octets k → octets v →
  38 ∉ quote_plus k ++ [61] ++ quote_plus v.
Proof.
  intros Hk Hv. rewrite !elem_of_app, list_elem_of_singleton.
  destruct (quote_plus_no_separator k Hk) as [_ Hnk].
  destruct (quote_plus_no_separator v Hv) as [_ Hnv].
  by intros [H|[H|H]].
Qed.

Lemma urlencode_cons (k v : bytes) (query : list (bytes * bytes)) :
  urlencode ((k, v) :: query)
  = match query with
    | [] => quote_plus k ++ [61] ++ quote_plus v
    | _ => (quote_plus k ++ [61] ++ quote_plus v) ++ 38 :: urlencode query
    end.
Proof. by destruct query. Qed.

Lemma urlencode_inj (q1 q2 : list (bytes * bytes)) :
  Forall (λ kv, octets kv.1 ∧ octets kv.2) q1 →
  Forall (λ kv, octets kv.1 ∧ octets kv.2) q2 →
  urlencode q1 = urlencode q2 → q1 = q2.
Proof.
  intros H1. revert q2.
  induction H1 as [|[k v] q1 [Hk Hv] H1 IH]; intros q2 H2 Heq.
  - destruct H2 as [|[k' v'] q2 _ _]; [done|].
    rewrite urlencode_cons in Heq. cbn in Heq.
    destruct q2; by destruct (quote_plus k').
  - destruct H2 as [|[k' v'] q2 [Hk' Hv'] H2].
    { rewrite urlencode_cons in Heq. cbn in Heq.
      destruct q1; by destruct (quote_plus k). }
    cbn [fst snd] in *. rewrite !urlencode_cons in Heq.
    pose proof (pair_string_no_ampersand k v Hk Hv) as Hn.
    pose proof (pair_string_no_ampersand k' v' Hk' Hv') as Hn'.
    destruct q1 as [|kv1 q1], q2 as [|kv2 q2].
    + by destruct (pair_string_inj k v k' v') as [-> ->].
    + rewrite Heq in Hn. destruct Hn. apply elem_of_app. right. by left.
    + rewrite <- Heq in Hn'. destruct Hn'. apply elem_of_app. right. by left.
    + apply app_separator_inj in Heq as [Hp Hq]; [|done..].
      destruct (pair_string_inj k v k' v') as [-> ->]; [done..|].
      f_equal. by apply IH.
Qed.

Lemma urlencode_chars (query : list (bytes * bytes)) :
  Forall (λ kv, octets kv.1 ∧ octets kv.2) query →
  Forall (λ c, query_char c = true) (urlencode query).
Proof.
  assert (Hq : ∀ s, octets s → Forall (λ c, query_char c = true)
                                  (quote_plus s)).
  { intros s Hs. eapply Forall_impl; [by apply quote_plus_chars|].
    intros c Hc. unfold query_char. cbn in Hc. by rewrite Hc. }
  induction 1 as [|[k v] query [Hk Hv] _ IH]; [constructor|].
  rewrite urlencode_cons. cbn [fst snd] in *.
  assert (Forall (λ c, query_char c = true)
            (quote_plus k ++ [61] ++ quote_plus v)) as Hkv.
  { rewrite !Forall_app. split; [by apply Hq|].
    split; [by repeat constructor|by apply Hq]. }
  destruct query; [done|].
  apply Forall_app. split; [done|]. by constructor.
Qed.

Lemma utf8_encode_char_octets (c : N) :
  c < 1114112 → octets (utf8_encode_char c).
Proof.
  intros Hc. unfold utf8_encode_char, octets.
  assert (c / 64 < 32 ∨ 2048 ≤ c) as H1.
  { destruct (N.lt_ge_cases c 2048); [left|by right].
    apply N.Div0.div_lt_upper_bound. lia. }
  assert (c / 4096 < 16 ∨ 65536 ≤ c) as H2.
  { destruct (N.lt_ge_cases c 65536); [left|by right].
    apply N.Div0.div_lt_upper_bound. lia. }
  assert (c / 262144 < 5) as H3.
  { apply N.Div0.div_lt_upper_bound. lia. }
  pose proof (N.mod_lt c 64 ltac:(done)).
  pose proof (N.mod_lt (c / 64) 64 ltac:(done)).
  pose proof (N.mod_lt (c / 4096) 64 ltac:(done)).
  destruct (N.ltb_spec c 128); [repeat constructor; lia|].
  destruct (N.ltb_spec c 2048); [repeat constructor; lia|].
  destruct (N.ltb_spec c 65536); repeat constructor; lia.
Qed.

Lemma encode_octets (s : ustring) : scalar_values s → octets (encode s).
Proof.
  intros Hs. rewrite (encode_scalar_values s Hs).
  induction Hs as [|c s [Hc _] _ IH]; [constructor|].
  cbn [flat_map]. apply Forall_app.
  split; [by apply utf8_encode_char_octets|done].
Qed.

Lemma encode_inj (s t : ustring) :
  scalar_values s → scalar_values t → encode s = encode t → s = t.
Proof.
  intros Hs%decode_encode_scalar_values Ht%decode_encode_scalar_values Heq.
  rewrite Heq in Hs. congruence.
Qed.

Lemma query_char_printable (c : N) : query_char c = true → 32 < c < 127.
Proof.
  unfold query_char, always_safe.
  rewrite !orb_true_iff, !andb_true_iff, !N.leb_le, !N.eqb_eq. lia.
Qed.

Lemma params_items_octets (title : ustring) :
  scalar_values title →
  Forall (λ kv, octets kv.1 ∧ octets kv.2) (params_items (params title)).
Proof.
  intros Ht. unfold params_items, params. cbn [db field term].
  repeat constructor; cbn [fst snd];
    try (by apply encode_octets); vm_compute; repeat constructor.
Qed.

(** X12: the URL that [LookupFormatter.format] requests is, for every
    title of scalar values of Unicode and whatever the order in which the
    dictionary of parameters is iterated, made of printable ASCII
    characters without a space, and different such titles give different
    URLs. *)
Theorem request_url_of_title
    (order : list (bytes * bytes) → list (bytes * bytes))
    (t1 t2 : ustring) :
  (∀ l, order l ≡ₚ l) →
  scalar_values t1 → scalar_values t2 →
  Forall (λ c, 32 < c < 127) (request_url order t1) ∧
  (request_url order t1 = request_url order t2 → t1 = t2).
Proof.
  intros Horder H1 H2.
  assert (Ho : ∀ t, scalar_values t →
    Forall (λ kv, octets kv.1 ∧ octets kv.2)
           (order (params_items (params t)))).
  { intros t Ht. rewrite (Horder _). by apply params_items_octets. }
  split.
  - unfold request_url. apply Forall_app. split.
    + vm_compute. repeat constructor.
    + eapply Forall_impl; [by apply urlencode_chars, Ho|].
      apply query_char_printable.
  - unfold request_url. intros Heq%app_inv_head.
    apply urlencode_inj in Heq; [|by apply Ho..].
    assert (Hin : (u "term", encode t1)
                  ∈ order (params_items (params t2))).
    { rewrite <- Heq, (Horder _). unfold params_items, params.
      cbn [db field term]. do 2 right. by left. }
    rewrite (Horder _) in Hin. unfold params_items, params in Hin.
    cbn [db field term] in Hin.
    apply elem_of_cons in Hin as [Hin|Hin];
      [apply (f_equal fst) in Hin; by vm_compute in Hin|].
    apply elem_of_cons in Hin as [Hin|Hin];
      [apply (f_equal fst) in Hin; by vm_compute in Hin|].
    apply list_elem_of_singleton in Hin. injection Hin as Hin.
    by apply encode_inj.
Qed.

Lemma request_url_of_title_witness :
  (∀ l : list (bytes * bytes), id l ≡ₚ l) ∧
  scalar_values ([34] ++ u "Foo bar" ++ [34]) ∧ scalar_values NO_TITLE ∧
  Forall (λ c, 32 < c < 127)
         (request_url id ([34] ++ u "Foo bar" ++ [34])).
Proof.
  assert (Ho : ∀ l : list (bytes * bytes), id l ≡ₚ l) by done.
  assert (H1 : scalar_values ([34] ++ u "Foo bar" ++ [34])).
  { repeat first [apply Forall_cons | apply Forall_nil | split];
      first [by vm_compute | left; by vm_compute | right; by vm_compute]. }
  assert (H2 : scalar_values NO_TITLE).
  { repeat first [apply Forall_cons | apply Forall_nil | split];
      first [by vm_compute | left; by vm_compute | right; by vm_compute]. }
  split; [exact Ho|]. split; [exact H1|]. split; [exact H2|].
  exact (proj1 (request_url_of_title id _ _ Ho H1 H2)).
Defined.
